(** * opentofu-provider-gopass: the gopass client wrapper and the
      single-secret ephemeral resource, embedded and verified.

    The Go code is embedded shallowly: strings are [string], the heap of
    [*GopassClient] objects is a list indexed by address, a nil pointer is
    [None], Go's [(value, error)] results are pairs whose second component
    is [None] for a nil error, and every method is a function in a small
    state monad over the [World] (heap plus the trace of log lines and
    backend calls) whose outcome is a result, a panic or a blocked
    goroutine. *)

From Stdlib Require Import ZArith Bool Ascii String List Lia.
From stdpp Require Import base option list strings gmap.

(** ** Go's [strings] package, on byte strings *)

Module strings.

(** [s[n:]] *)
Fixpoint slice_from (n : nat) (s : string) : string :=
  match n, s with
  | O, _ => s
  | S n', String _ t => slice_from n' t
  | S _, EmptyString => EmptyString
  end.

(** [s[:n]] *)
Fixpoint slice_to (n : nat) (s : string) : string :=
  match n, s with
  | O, _ => EmptyString
  | S n', String a t => String a (slice_to n' t)
  | S _, EmptyString => EmptyString
  end.

(** [len(s) >= len(prefix) && s[:len(prefix)] == prefix] *)
Definition HasPrefix (s prefix : string) : bool :=
  (String.length prefix <=? String.length s)
  && String.eqb (slice_to (String.length prefix) s) prefix.

(** [len(s) >= len(suffix) && s[len(s)-len(suffix):] == suffix] *)
Definition HasSuffix (s suffix : string) : bool :=
  (String.length suffix <=? String.length s)
  && String.eqb (slice_from (String.length s - String.length suffix) s) suffix.

Definition TrimPrefix (s prefix : string) : string :=
  if HasPrefix s prefix then slice_from (String.length prefix) s else s.

Definition TrimSuffix (s suffix : string) : string :=
  if HasSuffix s suffix
  then slice_to (String.length s - String.length suffix) s
  else s.

(** Index of the first occurrence of [substr] in [s], or [-1]. *)
Fixpoint Index (s substr : string) : Z :=
  if HasPrefix s substr then 0%Z
  else match s with
       | EmptyString => (-1)%Z
       | String _ t =>
           let i := Index t substr in
           if (i <? 0)%Z then (-1)%Z else (i + 1)%Z
       end.

Definition Contains (s substr : string) : bool := (0 <=? Index s substr)%Z.

End strings.

(** ** Errors *)

(** A Go [error] value: either one produced by the gopass library, or the
    result of [fmt.Errorf(text + ": %w", cause)], which wraps its cause. *)
Inductive error : Type :=
| LibraryError (msg : string)
| Errorf_w (text : string) (cause : error).

(** [err.Error()] *)
Fixpoint Error (e : error) : string :=
  match e with
  | LibraryError msg => msg
  | Errorf_w text cause => text +:+ ": " +:+ Error cause
  end.

(** [errors.Unwrap(err)] *)
Definition Unwrap (e : error) : option error :=
  match e with
  | LibraryError _ => None
  | Errorf_w _ cause => Some cause
  end.

(** ** The secret-store library boundary *)

(** [gopass.Secret], as far as the wrapper reads it. *)
Record Secret : Type := mkSecret {
  Password : string;
  Keys : list string;
  secret_Get : string -> option string
}.

(** A [gopass.Store] value: what [Get] and [List] answer, and, when the
    dynamic type has a [Close(context.Context) error] method, what that
    method answers ([None] inside: a nil error). *)
Record Store : Type := mkStore {
  store_Get : string -> string -> Secret + error;
  store_List : list string + error;
  store_Close : option (option error)
}.

(** ** Trace of observable effects *)

Inductive Level : Type := LDebug | LWarn.

Inductive FieldValue : Type :=
| FString (s : string)
| FInt (n : Z).

Inductive Event : Type :=
| EvLog (lvl : Level) (msg : string) (fields : list (string * FieldValue))
| EvApiNew
| EvStoreGet (path revision : string)
| EvStoreList
| EvStoreClose.

Definition is_ApiNew (e : Event) : bool :=
  match e with EvApiNew => true | _ => false end.

(** Number of [api.New] calls recorded in a trace. *)
Definition open_calls (tr : list Event) : nat :=
  length (filter (fun e => is_ApiNew e = true) tr).

(** ** The world: heap of clients and the trace *)

(** [type GopassClient struct { store gopass.Store; mu sync.Mutex }];
    [store = None] is the nil interface, [mu = true] a held mutex. *)
Record GopassClient : Type := mkClient {
  store : option Store;
  mu : bool
}.

Definition loc : Type := nat.

Record World : Type := mkWorld {
  heap : list GopassClient;
  events : list Event
}.

Definition empty_world : World := mkWorld [] [].

(** ** Outcomes and the monad *)

Inductive Outcome (A : Type) : Type :=
| Done (a : A) (w : World)
| Panic
| Blocked.

Arguments Done {A} a w.
Arguments Panic {A}.
Arguments Blocked {A}.

Definition M (A : Type) : Type := World -> Outcome A.

Definition ret {A} (a : A) : M A := fun w => Done a w.

Definition bind {A B} (m : M A) (k : A -> M B) : M B :=
  fun w => match m w with
           | Done a w' => k a w'
           | Panic => Panic
           | Blocked => Blocked
           end.

Declare Scope go_scope.
Delimit Scope go_scope with go.
Notation "'let*' x ':=' m 'in' k" := (bind m (fun x => k))
  (at level 10, x name, m at level 100, k at level 200) : go_scope.
Notation "m '>>' k" := (bind m (fun _ => k))
  (at level 90, right associativity) : go_scope.
Local Open Scope go_scope.

(** Result value of an outcome, when there is one. *)
Definition result {A} (o : Outcome A) : option A :=
  match o with Done a _ => Some a | _ => None end.

(** ** Primitive effects *)

Definition emit (e : Event) : M unit :=
  fun w => Done tt (mkWorld (heap w) (events w ++ [e])).

Definition tflog_Debug (msg : string) (fields : list (string * FieldValue)) : M unit :=
  emit (EvLog LDebug msg fields).

Definition tflog_Warn (msg : string) (fields : list (string * FieldValue)) : M unit :=
  emit (EvLog LWarn msg fields).

(** Dereference of a [*GopassClient]: a nil pointer panics. *)
Definition deref (c : option loc) : M GopassClient :=
  fun w => match c with
           | None => Panic
           | Some l => match heap w !! l with
                       | Some obj => Done obj w
                       | None => Panic
                       end
           end.

Definition assign (c : option loc) (obj : GopassClient) : M unit :=
  fun w => match c with
           | None => Panic
           | Some l => Done tt (mkWorld (<[l := obj]> (heap w)) (events w))
           end.

(** [c.mu.Lock()]: the address of [c.mu] is taken first, so a nil [c]
    panics; a held mutex blocks the caller. *)
Definition mu_Lock (c : option loc) : M unit :=
  let* obj := deref c in
  if mu obj then (fun _ => Blocked)
  else assign c (mkClient (store obj) true).

(** [c.mu.Unlock()] *)
Definition mu_Unlock (c : option loc) : M unit :=
  let* obj := deref c in
  assign c (mkClient (store obj) false).

(** [defer d] around [body]: [d] runs when [body] returns. *)
Definition defer {A} (d : M unit) (body : M A) : M A :=
  let* r := body in
  d >> ret r.

(** Read and write of the field [c.store]. *)
Definition load_store (c : option loc) : M (option Store) :=
  let* obj := deref c in ret (store obj).

Definition store_store (c : option loc) (s : option Store) : M unit :=
  let* obj := deref c in
  assign c (mkClient s (mu obj)).

(** [&GopassClient{}]: a fresh object, zero-valued. *)
Definition NewGopassClient : M (option loc) :=
  fun w => Done (Some (length (heap w)))
                (mkWorld (heap w ++ [mkClient None false]) (events w)).

(** ** The host framework's types, as far as the provider uses them *)

Inductive Severity : Type := SeverityError | SeverityWarning.

Record Diagnostic : Type := mkDiagnostic {
  Severity_of : Severity;
  Summary : string;
  Detail : string
}.

Definition Severity_eqb (a b : Severity) : bool :=
  match a, b with
  | SeverityError, SeverityError => true
  | SeverityWarning, SeverityWarning => true
  | _, _ => false
  end.

Definition Diagnostic_Equal (a b : Diagnostic) : bool :=
  Severity_eqb (Severity_of a) (Severity_of b)
  && String.eqb (Summary a) (Summary b)
  && String.eqb (Detail a) (Detail b).

Module diag.

Definition Diagnostics : Type := list Diagnostic.

Definition Contains (diags : Diagnostics) (d : Diagnostic) : bool :=
  existsb (Diagnostic_Equal d) diags.

(** [Append] adds the diagnostics that are not already present. *)
Fixpoint Append (diags : Diagnostics) (new : list Diagnostic) : Diagnostics :=
  match new with
  | [] => diags
  | d :: rest =>
      if Contains diags d then Append diags rest
      else Append (diags ++ [d]) rest
  end.

Definition NewErrorDiagnostic (summary detail : string) : Diagnostic :=
  mkDiagnostic SeverityError summary detail.

Definition AddError (diags : Diagnostics) (summary detail : string) : Diagnostics :=
  Append diags [NewErrorDiagnostic summary detail].

Definition HasError (diags : Diagnostics) : bool :=
  existsb (fun d => Severity_eqb (Severity_of d) SeverityError) diags.

End diag.

(** [types.String]: null, unknown or a known value. *)
Inductive types_String : Type :=
| StringNull
| StringUnknown
| StringValue (s : string).

Definition ValueString (v : types_String) : string :=
  match v with
  | StringValue s => s
  | _ => ""
  end.

(** A value of type [any] as the provider meets it: the nil interface, a
    [*GopassClient] (possibly a nil pointer), or a value of another type,
    known by the name [%T] prints. *)
Inductive any : Type :=
| AnyNil
| AnyGopassClient (p : option loc)
| AnyOther (type_name : string).

(** [type SecretModel struct { Path, Value types.String }] *)
Record SecretModel : Type := mkSecretModel {
  Path : types_String;
  Value : types_String
}.

(** [schema.StringAttribute] *)
Record StringAttribute : Type := mkStringAttribute {
  Description : string;
  Required : bool;
  Computed : bool;
  Sensitive : bool
}.

(** The configuration a request carries: what [Config.Get] decodes into
    the model, and the diagnostics it returns. *)
Record Config : Type := mkConfig {
  config_data : SecretModel;
  config_diags : diag.Diagnostics
}.

Definition Config_Get (cfg : Config) : SecretModel * diag.Diagnostics :=
  (config_data cfg, config_diags cfg).

(** [resp.Result.Set(ctx, &data)] for a model that fits the schema:
    the object is stored and no diagnostic is returned. *)
Definition Result_Set (old : option SecretModel) (data : SecretModel)
  : option SecretModel * diag.Diagnostics :=
  (Some data, []).

Module ephemeral.

Record ConfigureRequest : Type := mkConfigureRequest {
  ProviderData : any
}.

Record ConfigureResponse : Type := mkConfigureResponse {
  ConfigureResponse_Diagnostics : diag.Diagnostics
}.

Record OpenRequest : Type := mkOpenRequest {
  OpenRequest_Config : Config
}.

Record OpenResponse : Type := mkOpenResponse {
  Result : option SecretModel;
  OpenResponse_Diagnostics : diag.Diagnostics
}.

Record MetadataRequest : Type := mkMetadataRequest {
  ProviderTypeName : string
}.

End ephemeral.

Module provider.

Record ConfigureRequest : Type := mkConfigureRequest {
  ConfigureRequest_ConfigDiags : diag.Diagnostics
}.

(** The framework hands [DataSourceData] to data sources, [ResourceData]
    to managed resources and [EphemeralResourceData] to ephemeral
    resources. *)
Record ConfigureResponse : Type := mkConfigureResponse {
  Diagnostics : diag.Diagnostics;
  DataSourceData : any;
  ResourceData : any;
  EphemeralResourceData : any
}.

(** A response as the framework creates it before calling [Configure]. *)
Definition new_ConfigureResponse : ConfigureResponse :=
  mkConfigureResponse [] AnyNil AnyNil AnyNil.

(** The request the framework builds for an ephemeral resource's
    [Configure] hook from the provider's response. *)
Definition ephemeral_ConfigureRequest (resp : ConfigureResponse)
  : ephemeral.ConfigureRequest :=
  ephemeral.mkConfigureRequest (EphemeralResourceData resp).

End provider.

(** [type SecretEphemeralResource struct { client *GopassClient }] *)
Record SecretEphemeralResource : Type := mkSecretEphemeralResource {
  client : option loc
}.

(** [%T] of a value of type [any]. *)
Definition type_name_of (v : any) : string :=
  match v with
  | AnyNil => "<nil>"
  | AnyGopassClient _ => "*provider.GopassClient"
  | AnyOther n => n
  end.

(** ** The client wrapper *)

Section Provider.

(** [strconv.Quote], which [%q] applies to a string operand. *)
Variable strconv_Quote : string -> string.

(** [api.New]: the answer of the call made after [n] earlier calls. *)
Variable api_New : nat -> Store + error.

Definition call_api_New : M (Store + error) :=
  fun w => Done (api_New (open_calls (events w)))
                (mkWorld (heap w) (events w ++ [EvApiNew])).

(** A method call on the interface value [c.store]: nil panics. *)
Definition call_Get (c : option loc) (path revision : string) : M (Secret + error) :=
  let* st := load_store c in
  match st with
  | None => fun _ => Panic
  | Some s => emit (EvStoreGet path revision) >> ret (store_Get s path revision)
  end.

Definition call_List (c : option loc) : M (list string + error) :=
  let* st := load_store c in
  match st with
  | None => fun _ => Panic
  | Some s => emit EvStoreList >> ret (store_List s)
  end.

(** [ensureStore] initializes the gopass store if not already done. *)
Definition ensureStore (c : option loc) : M (option error) :=
  mu_Lock c >>
  defer (mu_Unlock c) (
    let* st := load_store c in
    match st with
    | Some _ => ret None
    | None =>
        tflog_Debug "Initializing gopass store" [] >>
        let* r := call_api_New in
        match r with
        | inr err => ret (Some (Errorf_w "failed to initialize gopass store" err))
        | inl s =>
            store_store c (Some s) >>
            tflog_Debug "Gopass store initialized" [] >>
            ret None
        end
    end).

(** [Close] closes the gopass store and releases resources. *)
Definition Close (c : option loc) : M unit :=
  mu_Lock c >>
  defer (mu_Unlock c) (
    let* st := load_store c in
    match st with
    | None => ret tt
    | Some s =>
        match store_Close s with
        | Some answer =>
            emit EvStoreClose >>
            match answer with
            | Some err =>
                tflog_Warn "Error closing gopass store" [("error", FString (Error err))]
            | None => ret tt
            end
        | None => ret tt
        end >>
        store_store c None
    end).

(** [GetSecret] retrieves a single secret by path. *)
Definition GetSecret (c : option loc) (path : string) : M (string * option error) :=
  let* e := ensureStore c in
  match e with
  | Some err => ret ("", Some err)
  | None =>
      tflog_Debug "Reading secret" [("path", FString path)] >>
      let* r := call_Get c path "latest" in
      match r with
      | inr err =>
          ret ("", Some (Errorf_w ("failed to get secret " +:+ strconv_Quote path) err))
      | inl secret =>
          let password := Password secret in
          tflog_Debug "Successfully read secret" [("path", FString path)] >>
          ret (password, None)
      end
  end.

(** The loop of [GetSecretFull] over [secret.Keys()]. *)
Fixpoint GetSecretFull_loop (secret : Secret) (keys : list string)
    (fields : gmap string string) : gmap string string :=
  match keys with
  | [] => fields
  | key :: rest =>
      match secret_Get secret key with
      | Some value => GetSecretFull_loop secret rest (<[key := value]> fields)
      | None => GetSecretFull_loop secret rest fields
      end
  end.

(** [GetSecretFull] retrieves a secret with all its key-value pairs. *)
Definition GetSecretFull (c : option loc) (path : string)
  : M (string * gmap string string * option error) :=
  let* e := ensureStore c in
  match e with
  | Some err => ret ("", ∅, Some err)
  | None =>
      let* r := call_Get c path "latest" in
      match r with
      | inr err =>
          ret ("", ∅, Some (Errorf_w ("failed to get secret " +:+ strconv_Quote path) err))
      | inl secret =>
          ret (Password secret, GetSecretFull_loop secret (Keys secret) ∅, None)
      end
  end.

(** The filter loop of [ListSecrets], appending to [results]. *)
Fixpoint ListSecrets_loop (prefixWithSlash : string) (allSecrets results : list string)
  : list string :=
  match allSecrets with
  | [] => results
  | secretPath :: rest =>
      if negb (strings.HasPrefix secretPath prefixWithSlash)
      then ListSecrets_loop prefixWithSlash rest results
      else
        let relativePath := strings.TrimPrefix secretPath prefixWithSlash in
        if strings.Contains relativePath "/"
        then ListSecrets_loop prefixWithSlash rest results
        else ListSecrets_loop prefixWithSlash rest (results ++ [secretPath])
  end.

(** [ListSecrets] lists the immediate children of a prefix. *)
Definition ListSecrets (c : option loc) (prefix : string) : M (list string * option error) :=
  let* e := ensureStore c in
  match e with
  | Some err => ret ([], Some err)
  | None =>
      let prefix := strings.TrimSuffix prefix "/" in
      tflog_Debug "Listing secrets" [("prefix", FString prefix)] >>
      let* r := call_List c in
      match r with
      | inr err => ret ([], Some (Errorf_w "failed to list secrets" err))
      | inl allSecrets =>
          let prefixWithSlash := prefix +:+ "/" in
          let results := ListSecrets_loop prefixWithSlash allSecrets [] in
          tflog_Debug "Listed secrets"
            [("prefix", FString prefix);
             ("count", FInt (Z.of_nat (length results)))] >>
          ret (results, None)
      end
  end.

(** The aggregation loop of [GetEnvSecrets]; [prefix] is already trimmed. *)
Fixpoint GetEnvSecrets_loop (c : option loc) (prefix : string)
    (secretPaths : list string) (result : gmap string string)
  : M (gmap string string) :=
  match secretPaths with
  | [] => ret result
  | fullPath :: rest =>
      let key := strings.TrimPrefix fullPath (prefix +:+ "/") in
      let* r := GetSecret c fullPath in
      match r with
      | (_, Some err) =>
          tflog_Warn "Failed to read secret, skipping"
            [("path", FString fullPath); ("error", FString (Error err))] >>
          GetEnvSecrets_loop c prefix rest result
      | (value, None) =>
          GetEnvSecrets_loop c prefix rest (<[key := value]> result)
      end
  end.

(** [GetEnvSecrets] reads all immediate child secrets under a path and
    returns them as a map from relative name to password. *)
Definition GetEnvSecrets (c : option loc) (prefix : string)
  : M (gmap string string * option error) :=
  let* r := ListSecrets c prefix in
  match r with
  | (_, Some err) => ret (∅, Some err)
  | (secretPaths, None) =>
      let prefix := strings.TrimSuffix prefix "/" in
      let* result := GetEnvSecrets_loop c prefix secretPaths ∅ in
      ret (result, None)
  end.


(** ** The single-secret ephemeral resource (secret_ephemeral.go) *)

Definition NewSecretEphemeralResource : SecretEphemeralResource :=
  mkSecretEphemeralResource None.

Definition SecretEphemeralResource_Metadata (req : ephemeral.MetadataRequest) : string :=
  ephemeral.ProviderTypeName req +:+ "_secret".

(** The attributes of the schema. *)
Definition SecretEphemeralResource_Schema : list (string * StringAttribute) :=
  [("path",
    mkStringAttribute
      "Path to the secret in the gopass store (e.g., 'infrastructure/db/password')."
      true false false);
   ("value",
    mkStringAttribute
      "The secret value (password/first line of the secret)."
      false true true)].

Definition attribute (name : string) (sch : list (string * StringAttribute))
  : option StringAttribute :=
  snd <$> find (fun kv => String.eqb (fst kv) name) sch.

Definition SecretEphemeralResource_Configure
    (r : SecretEphemeralResource)
    (req : ephemeral.ConfigureRequest) (resp : ephemeral.ConfigureResponse)
  : SecretEphemeralResource * ephemeral.ConfigureResponse :=
  match ephemeral.ProviderData req with
  | AnyNil => (r, resp)
  | AnyGopassClient p => (mkSecretEphemeralResource p, resp)
  | other =>
      (r, ephemeral.mkConfigureResponse
            (diag.AddError (ephemeral.ConfigureResponse_Diagnostics resp)
               "Unexpected Provider Data"
               ("Expected *GopassClient, got: " +:+ type_name_of other)))
  end.

Definition SecretEphemeralResource_Open
    (r : SecretEphemeralResource)
    (req : ephemeral.OpenRequest) (resp : ephemeral.OpenResponse)
  : M ephemeral.OpenResponse :=
  let '(data, diags) := Config_Get (ephemeral.OpenRequest_Config req) in
  let resp := ephemeral.mkOpenResponse (ephemeral.Result resp)
                (diag.Append (ephemeral.OpenResponse_Diagnostics resp) diags) in
  if diag.HasError (ephemeral.OpenResponse_Diagnostics resp) then ret resp
  else
    let path := ValueString (Path data) in
    tflog_Debug "Reading secret from gopass" [("path", FString path)] >>
    let* got := GetSecret (client r) path in
    match got with
    | (_, Some err) =>
        ret (ephemeral.mkOpenResponse (ephemeral.Result resp)
               (diag.AddError (ephemeral.OpenResponse_Diagnostics resp)
                  "Failed to read secret"
                  ("Could not read secret at path " +:+ strconv_Quote path
                   +:+ ": " +:+ Error err)))
    | (value, None) =>
        let data := mkSecretModel (Path data) (StringValue value) in
        let '(res, diags) := Result_Set (ephemeral.Result resp) data in
        let resp := ephemeral.mkOpenResponse res
                      (diag.Append (ephemeral.OpenResponse_Diagnostics resp) diags) in
        tflog_Debug "Successfully read secret from gopass" [("path", FString path)] >>
        ret resp
    end.

(** ** The provider entry point *)

Definition GopassProvider_Configure
    (req : provider.ConfigureRequest) (resp : provider.ConfigureResponse)
  : M provider.ConfigureResponse :=
  let resp := provider.mkConfigureResponse
                (diag.Append (provider.Diagnostics resp)
                   (provider.ConfigureRequest_ConfigDiags req))
                (provider.DataSourceData resp)
                (provider.ResourceData resp)
                (provider.EphemeralResourceData resp) in
  if diag.HasError (provider.Diagnostics resp) then ret resp
  else
    let* client := NewGopassClient in
    let resp := provider.mkConfigureResponse
                  (provider.Diagnostics resp)
                  (AnyGopassClient client)
                  (provider.ResourceData resp)
                  (provider.EphemeralResourceData resp) in
    let resp := provider.mkConfigureResponse
                  (provider.Diagnostics resp)
                  (provider.DataSourceData resp)
                  (AnyGopassClient client)
                  (provider.EphemeralResourceData resp) in
    ret resp.

(** ** Concurrent callers of [ensureStore]

    Each goroutine executing [ensureStore] is at one of the statements
    below; the scheduler picks a goroutine, which takes one step unless
    it is blocked on the mutex or has returned. *)

Inductive Pc : Type :=
| AtLock
| AtCheck
| AtNew
| AtAssign (s : Store)
| AtUnlock (r : option error)
| Returned (r : option error).

Definition thread_step (c : option loc) (pc : Pc) : M Pc :=
  match pc with
  | AtLock => mu_Lock c >> ret AtCheck
  | AtCheck =>
      let* st := load_store c in
      match st with
      | Some _ => ret (AtUnlock None)
      | None => tflog_Debug "Initializing gopass store" [] >> ret AtNew
      end
  | AtNew =>
      let* r := call_api_New in
      match r with
      | inr err =>
          ret (AtUnlock (Some (Errorf_w "failed to initialize gopass store" err)))
      | inl s => ret (AtAssign s)
      end
  | AtAssign s =>
      store_store c (Some s) >>
      tflog_Debug "Gopass store initialized" [] >>
      ret (AtUnlock None)
  | AtUnlock r => mu_Unlock c >> ret (Returned r)
  | Returned _ => fun _ => Blocked
  end.

(** Goroutine [i] is scheduled: it steps if it can. *)
Definition sched_step (c : option loc) (cfg : list Pc * World) (i : nat)
  : list Pc * World :=
  match fst cfg !! i with
  | Some pc =>
      match thread_step c pc (snd cfg) with
      | Done pc' w' => (<[i := pc']> (fst cfg), w')
      | _ => cfg
      end
  | None => cfg
  end.

Definition run (c : option loc) (sched : list nat) (cfg : list Pc * World)
  : list Pc * World :=
  fold_left (sched_step c) sched cfg.

Definition is_Returned (pc : Pc) : bool :=
  match pc with Returned _ => true | _ => false end.

(** Statements executed while holding the mutex. *)
Definition critical (pc : Pc) : bool :=
  match pc with
  | AtCheck | AtNew | AtAssign _ | AtUnlock _ => true
  | AtLock | Returned _ => false
  end.

(** ** Vocabulary of the statements *)

(** The test the loop of [ListSecrets] applies to a stored path. *)
Definition is_child (prefix secretPath : string) : bool :=
  strings.HasPrefix secretPath (prefix +:+ "/")
  && negb (strings.Contains (strings.TrimPrefix secretPath (prefix +:+ "/")) "/").

(** Client [l] is unlocked and is, or on its next [ensureStore] becomes,
    connected to [st]. *)
Definition connects_to (w : World) (l : loc) (st : Store) : Prop :=
  ∃ obj, heap w !! l = Some obj ∧ mu obj = false ∧
         (store obj = Some st ∨
          (store obj = None ∧ api_New (open_calls (events w)) = inl st)).

(** Client [l] is unlocked and connected to [st]. *)
Definition connected (w : World) (l : loc) (st : Store) : Prop :=
  heap w !! l = Some (mkClient (Some st) false).

(** The warning [GetEnvSecrets] logs for a child it skips. *)
Definition skip_warning (fullPath : string) (err : error) : Event :=
  EvLog LWarn "Failed to read secret, skipping"
    [("path", FString fullPath); ("error", FString (Error err))].

(** What the loop of [GetEnvSecrets] accumulates over a connected store. *)
Definition collect (st : Store) (prefix : string)
    (secretPaths : list string) (acc : gmap string string) : gmap string string :=
  fold_left
    (fun acc fullPath =>
       match store_Get st fullPath "latest" with
       | inl secret =>
           <[strings.TrimPrefix fullPath (prefix +:+ "/") := Password secret]> acc
       | inr _ => acc
       end)
    secretPaths acc.

(** ** The invariant of concurrent [ensureStore] callers

    [n0] is the number of [api.New] calls made before the callers
    start, [l] the client they share. *)

Definition fails_before (n0 m : nat) : Prop :=
  ∀ k, n0 ≤ k → k < m → ∃ e, api_New k = inr e.

Definition has_error (pc : Pc) : bool :=
  match pc with
  | AtUnlock (Some _) | Returned (Some _) => true
  | _ => false
  end.

(** No store yet and no open has succeeded. *)
Definition okA (pc : Pc) : Prop :=
  match pc with
  | AtLock | AtCheck | AtNew | AtUnlock (Some _) | Returned (Some _) => True
  | _ => False
  end.

(** An open has succeeded with [s], which is about to be assigned. *)
Definition okB (s : Store) (pc : Pc) : Prop :=
  match pc with
  | AtLock | AtUnlock (Some _) | Returned (Some _) => True
  | AtAssign s' => s' = s
  | _ => False
  end.

(** The store is set. *)
Definition okC (pc : Pc) : Prop :=
  match pc with
  | AtLock | AtCheck | AtUnlock _ | Returned _ => True
  | _ => False
  end.

(** Every goroutine but [i] is outside the critical section. *)
Definition others_idle (pcs : list Pc) (i : nat) : Prop :=
  ∀ j pc, j ≠ i → pcs !! j = Some pc → critical pc = false.

(** The mutex is held exactly when one goroutine is in the critical
    section, and then no other is. *)
Definition mutex_inv (pcs : list Pc) (held : bool) : Prop :=
  if held
  then ∃ i pc, pcs !! i = Some pc ∧ critical pc = true ∧ others_idle pcs i
  else ∀ j pc, pcs !! j = Some pc → critical pc = false.

Definition phase_inv (n0 : nat) (pcs : list Pc) (st : option Store) (calls : nat)
  : Prop :=
  (st = None ∧ n0 ≤ calls ∧ fails_before n0 calls
   ∧ ∀ j pc, pcs !! j = Some pc → okA pc)
  ∨ (∃ s k, st = None ∧ calls = S k ∧ n0 ≤ k ∧ api_New k = inl s
            ∧ fails_before n0 k
            ∧ (∀ j pc, pcs !! j = Some pc → okB s pc)
            ∧ ∃ i, pcs !! i = Some (AtAssign s))
  ∨ (∃ s k, st = Some s ∧ calls = S k ∧ n0 ≤ k ∧ api_New k = inl s
            ∧ fails_before n0 k
            ∧ ∀ j pc, pcs !! j = Some pc → okC pc).

Definition Inv (n0 : nat) (l : loc) (cfg : list Pc * World) : Prop :=
  ∃ obj,
    heap (snd cfg) !! l = Some obj
    ∧ mutex_inv (fst cfg) (mu obj)
    ∧ phase_inv n0 (fst cfg) (store obj) (open_calls (events (snd cfg)))
    ∧ ((∃ j pc, fst cfg !! j = Some pc ∧ has_error pc = true) →
       ∃ e, api_New n0 = inr e).

End Provider.

(** ** Sample data *)

Definition double_quote : ascii := ascii_of_nat 34.

(** Quoting of a string that needs no escape. *)
Definition sample_Quote (s : string) : string :=
  String double_quote (s +:+ String double_quote EmptyString).

Definition sample_paths : list string :=
  ["infra/db/user"; "infra/db/password"; "infra/db/nested/x";
   "infra/db/broken"; "other/key"].

Definition not_in_store : error := LibraryError "entry is not in the password store".

Definition sample_Get (path revision : string) : Secret + error :=
  if negb (String.eqb revision "latest") then inr (LibraryError "unknown revision")
  else if String.eqb path "infra/db/user" then inl (mkSecret "alice" [] (fun _ => None))
  else if String.eqb path "infra/db/password" then inl (mkSecret "secret1" [] (fun _ => None))
  else if String.eqb path "infra/db/nested/x" then inl (mkSecret "deep" [] (fun _ => None))
  else if String.eqb path "other/key" then inl (mkSecret "k" [] (fun _ => None))
  else inr not_in_store.

Definition sample_store : Store :=
  mkStore sample_Get (inl sample_paths) (Some None).

Definition sample_api_New (n : nat) : Store + error := inl sample_store.

Definition no_keys : error := LibraryError "no usable private keys".

Definition failing_api_New (n : nat) : Store + error := inr no_keys.

(** One client, not yet connected. *)
Definition fresh_world : World := mkWorld [mkClient None false] [].

(** A store whose [Close] reports an error, and one client connected to it. *)
Definition stubborn_store : Store :=
  mkStore sample_Get (inl sample_paths) (Some (Some (LibraryError "lock file busy"))).

Definition stubborn_world : World := mkWorld [mkClient (Some stubborn_store) false] [].

(** A resource that was handed the client at address 0. *)
Definition configured_resource : SecretEphemeralResource :=
  mkSecretEphemeralResource (Some 0).

(** An [Open] request whose configuration sets [path]. *)
Definition open_request (path : string) : ephemeral.OpenRequest :=
  ephemeral.mkOpenRequest (mkConfig (mkSecretModel (StringValue path) StringNull) []).

(** A response as the framework creates it before calling [Open]. *)
Definition new_OpenResponse : ephemeral.OpenResponse :=
  ephemeral.mkOpenResponse None [].

(** Two goroutines, interleaved at every step. *)
Definition alternating : list nat :=
  [0; 1; 0; 1; 0; 1; 0; 1; 0; 1; 0; 1; 1; 1; 1; 1].


(** ** Vocabulary of the further properties *)

(** Calls that reach the gopass library, as opposed to log lines. *)
Definition is_backend (e : Event) : bool :=
  match e with
  | EvLog _ _ _ => false
  | _ => true
  end.

Definition backend_calls (tr : list Event) : list Event :=
  filter (fun e => is_backend e = true) tr.

(** What a method called on client [l] leaves in place: the heap keeps
    its size, every other client is untouched, the mutex of [l] is free
    again, and the trace has only grown. *)
Definition preserves (l : loc) (w w' : World) : Prop :=
  length (heap w') = length (heap w)
  ∧ (∀ l', l' ≠ l → heap w' !! l' = heap w !! l')
  ∧ (∃ obj, heap w' !! l = Some obj ∧ mu obj = false)
  ∧ ∃ ev', events w' = events w ++ ev'.

Definition is_other_type (v : any) : bool :=
  match v with
  | AnyOther _ => true
  | _ => false
  end.

(** A goroutine that may still call [api.New]. *)
Definition may_open (pc : Pc) : bool :=
  match pc with
  | AtLock | AtCheck | AtNew => true
  | _ => false
  end.

Definition pending_opens (pcs : list Pc) : nat :=
  length (filter (fun pc => may_open pc = true) pcs).

(** A secret with two fields and a key that has no value. *)
Definition full_secret : Secret :=
  mkSecret "hunter2" ["user"; "url"; "ghost"]
    (fun key =>
       if String.eqb key "user" then Some "alice"
       else if String.eqb key "url" then Some "https://db.example"
       else None).

Definition full_store : Store :=
  mkStore (fun path revision =>
             if String.eqb path "infra/db/admin" && String.eqb revision "latest"
             then inl full_secret else inr not_in_store)
    (inr (LibraryError "store is locked")) (Some None).

Definition full_api_New (n : nat) : Store + error := inl full_store.

(** The sample store's client, already connected. *)
Definition connected_world : World := mkWorld [mkClient (Some sample_store) false] [].

(** An [Open] request whose configuration could not be read. *)
Definition unreadable_request : ephemeral.OpenRequest :=
  ephemeral.mkOpenRequest
    (mkConfig (mkSecretModel StringNull StringNull)
       [mkDiagnostic SeverityError "Missing Configuration" "path is required"]).

(** A second client beside the first, connected to another store. *)
Definition two_clients : World :=
  mkWorld [mkClient None false; mkClient (Some full_store) false] [].

(** * Facts about the [strings] functions *)

Module strings_facts.
Import strings.

Lemma append_nil_l (b : string) : "" +:+ b = b.
Proof. reflexivity. Qed.

Lemma append_cons (ch : ascii) (a b : string) :
  String ch a +:+ b = String ch (a +:+ b).
Proof. reflexivity. Qed.

Ltac string_induction a :=
  induction a as [|? a ?IH];
  rewrite ?append_nil_l, ?append_cons; simpl.

Lemma length_append (a b : string) :
  String.length (a +:+ b) = String.length a + String.length b.
Proof. string_induction a; [reflexivity | now rewrite IH]. Qed.

Lemma append_assoc (a b c : string) : (a +:+ b) +:+ c = a +:+ (b +:+ c).
Proof. string_induction a; [reflexivity | now rewrite IH]. Qed.

Lemma append_nil_r (a : string) : a +:+ "" = a.
Proof. string_induction a; [reflexivity | now rewrite IH]. Qed.

Lemma slice_to_append (p x : string) : slice_to (String.length p) (p +:+ x) = p.
Proof. string_induction p; [reflexivity | now rewrite IH]. Qed.

Lemma slice_from_append (p x : string) : slice_from (String.length p) (p +:+ x) = x.
Proof. string_induction p; [reflexivity | exact IH]. Qed.

Lemma slice_to_from (n : nat) (s : string) : slice_to n s +:+ slice_from n s = s.
Proof.
  revert s; induction n as [|n IH]; intros [|ch s]; simpl;
    rewrite ?append_nil_l, ?append_cons; try reflexivity.
  now rewrite IH.
Qed.

Lemma HasPrefix_spec (s p : string) :
  HasPrefix s p = true ↔ ∃ x, s = p +:+ x.
Proof.
  unfold HasPrefix. rewrite andb_true_iff, Nat.leb_le, String.eqb_eq. split.
  - intros [_ H]. exists (slice_from (String.length p) s).
    rewrite <- H at 1. symmetry. apply slice_to_from.
  - intros [x ->]. rewrite length_append, slice_to_append. split; [lia | reflexivity].
Qed.

Lemma HasPrefix_append (p x : string) : HasPrefix (p +:+ x) p = true.
Proof. apply HasPrefix_spec. now exists x. Qed.

Lemma TrimPrefix_append (p x : string) : TrimPrefix (p +:+ x) p = x.
Proof. unfold TrimPrefix. rewrite HasPrefix_append. apply slice_from_append. Qed.

Lemma HasPrefix_TrimPrefix (s p : string) :
  HasPrefix s p = true → s = p +:+ TrimPrefix s p.
Proof.
  intros H. destruct (proj1 (HasPrefix_spec s p) H) as [x ->].
  now rewrite TrimPrefix_append.
Qed.

Lemma HasSuffix_spec (s suf : string) :
  HasSuffix s suf = true ↔ ∃ p, s = p +:+ suf.
Proof.
  unfold HasSuffix. rewrite andb_true_iff, Nat.leb_le, String.eqb_eq. split.
  - intros [Hlen H]. exists (slice_to (String.length s - String.length suf) s).
    rewrite <- H at 2. symmetry. apply slice_to_from.
  - intros [p ->]. rewrite length_append. split; [lia|].
    replace (String.length p + String.length suf - String.length suf)
      with (String.length p) by lia.
    apply slice_from_append.
Qed.

Lemma TrimSuffix_append (p suf : string) : TrimSuffix (p +:+ suf) suf = p.
Proof.
  unfold TrimSuffix.
  replace (HasSuffix (p +:+ suf) suf) with true
    by (symmetry; apply HasSuffix_spec; now exists p).
  rewrite length_append.
  replace (String.length p + String.length suf - String.length suf)
    with (String.length p) by lia.
  apply slice_to_append.
Qed.

Lemma TrimSuffix_id (s suf : string) : HasSuffix s suf = false → TrimSuffix s suf = s.
Proof. unfold TrimSuffix. now intros ->. Qed.

Lemma Index_nonneg_spec (s sub : string) :
  (0 <= Index s sub)%Z ↔ ∃ a b, s = a +:+ sub +:+ b.
Proof.
  induction s as [|ch s IH]; simpl.
  - destruct (HasPrefix "" sub) eqn:E.
    + split; [intros _ | lia].
      apply HasPrefix_spec in E as [x E]. now exists "", x.
    + split; [lia|]. intros (a & b & E').
      destruct a; [|discriminate]. rewrite append_nil_l in E'.
      assert (HasPrefix "" sub = true) by (apply HasPrefix_spec; eauto). congruence.
  - destruct (HasPrefix (String ch s) sub) eqn:E.
    + split; [intros _ | lia].
      apply HasPrefix_spec in E as [x E]. now exists "", x.
    + destruct (Z.ltb_spec (Index s sub) 0) as [Hneg|Hpos].
      * split; [lia|]. intros (a & b & E').
        destruct a as [|ch' a]; rewrite ?append_nil_l, ?append_cons in E'.
        -- assert (HasPrefix (String ch s) sub = true)
             by (apply HasPrefix_spec; eauto). congruence.
        -- injection E' as _ E'. assert (0 <= Index s sub)%Z by (apply IH; eauto). lia.
      * split; [intros _ | lia].
        apply IH in Hpos as (a & b & ->). now exists (String ch a), b.
Qed.

Lemma Contains_spec (s sub : string) :
  Contains s sub = true ↔ ∃ a b, s = a +:+ sub +:+ b.
Proof. unfold Contains. rewrite Z.leb_le. apply Index_nonneg_spec. Qed.

End strings_facts.

(** * Running the primitives *)

Lemma bind_Done {A B} (m : M A) (k : A → M B) (w w' : World) (a : A) :
  m w = Done a w' → bind m k w = k a w'.
Proof. unfold bind. now intros ->. Qed.

Lemma bind_Panic {A B} (m : M A) (k : A → M B) (w : World) :
  m w = Panic → bind m k w = Panic.
Proof. unfold bind. now intros ->. Qed.

Lemma bind_Blocked {A B} (m : M A) (k : A → M B) (w : World) :
  m w = Blocked → bind m k w = Blocked.
Proof. unfold bind. now intros ->. Qed.

Lemma lookup_after_insert (h : list GopassClient) (l : loc) (old new : GopassClient) :
  h !! l = Some old → <[l := new]> h !! l = Some new.
Proof. intros H. apply list_lookup_insert_eq. eapply lookup_lt_Some, H. Qed.

Lemma open_calls_app (ev1 ev2 : list Event) :
  open_calls (ev1 ++ ev2) = open_calls ev1 + open_calls ev2.
Proof. unfold open_calls. now rewrite filter_app, length_app. Qed.

Lemma app_assoc3 (ev : list Event) (a b : Event) (rest : list Event) :
  (ev ++ [a]) ++ b :: rest = ev ++ a :: b :: rest.
Proof. now rewrite <- app_assoc. Qed.

(** Unfold the monad and the primitives down to heap lookups, then resolve
    the lookups from the hypothesis about the client's cell. *)
Ltac unfold_go :=
  unfold defer, mu_Lock, mu_Unlock, load_store, store_store, call_api_New,
    tflog_Debug, tflog_Warn, emit, deref, assign, bind, ret; simpl.

Ltac lookups H :=
  repeat first
    [ rewrite H
    | rewrite list_lookup_insert_eq by (rewrite ?length_insert; eapply lookup_lt_Some, H)
    | rewrite list_insert_insert_eq
    | progress simpl ].

Section Properties.

Variable strconv_Quote : string → string.
Variable api_New : nat → Store + error.

Lemma ensureStore_held l st h ev :
  h !! l = Some (mkClient st true) →
  ensureStore api_New (Some l) (mkWorld h ev) = Blocked.
Proof. intros H. unfold ensureStore. unfold_go. now lookups H. Qed.

(** A connected client: nothing happens. *)
Lemma ensureStore_connected l st h ev :
  h !! l = Some (mkClient (Some st) false) →
  ensureStore api_New (Some l) (mkWorld h ev) = Done None (mkWorld h ev).
Proof.
  intros H. unfold ensureStore. unfold_go. lookups H.
  now rewrite list_insert_id.
Qed.

(** An unconnected client whose [api.New] call succeeds. *)
Lemma ensureStore_opens l st h ev :
  h !! l = Some (mkClient None false) →
  api_New (open_calls ev) = inl st →
  ensureStore api_New (Some l) (mkWorld h ev)
  = Done None
      (mkWorld (<[l := mkClient (Some st) false]> h)
         (ev ++ [EvLog LDebug "Initializing gopass store" []; EvApiNew;
                 EvLog LDebug "Gopass store initialized" []])).
Proof.
  intros H Hnew. unfold ensureStore. unfold_go. lookups H.
  rewrite open_calls_app, Nat.add_0_r, Hnew. lookups H.
  now rewrite !app_assoc3.
Qed.

(** An unconnected client whose [api.New] call fails. *)
Lemma ensureStore_fails l err h ev :
  h !! l = Some (mkClient None false) →
  api_New (open_calls ev) = inr err →
  ensureStore api_New (Some l) (mkWorld h ev)
  = Done (Some (Errorf_w "failed to initialize gopass store" err))
      (mkWorld h (ev ++ [EvLog LDebug "Initializing gopass store" []; EvApiNew])).
Proof.
  intros H Hnew. unfold ensureStore. unfold_go. lookups H.
  rewrite open_calls_app, Nat.add_0_r, Hnew. lookups H.
  now rewrite !app_assoc3, list_insert_id.
Qed.

(** [ensureStore] on a client that [connects_to] a store. *)
Lemma ensureStore_connects w l st :
  connects_to api_New w l st →
  ∃ w1, ensureStore api_New (Some l) w = Done None w1
        ∧ connected w1 l st
        ∧ length (heap w1) = length (heap w).
Proof.
  destruct w as [h ev]. intros ([s b] & Hl & Hmu & Hst); simpl in *. subst b.
  destruct Hst as [-> | [-> Hnew]].
  - eexists. split; [now apply ensureStore_connected with (st := st)|]. now split.
  - eexists. split; [apply ensureStore_opens; [exact Hl | exact Hnew]|].
    unfold connected; simpl. split; [|now rewrite length_insert].
    eapply lookup_after_insert, Hl.
Qed.

(** Once connected, a further [ensureStore] changes nothing, so a method
    started before the connect behaves as one started after it. *)
Lemma after_ensureStore {A} (k : option error → M A) w w1 l st :
  ensureStore api_New (Some l) w = Done None w1 →
  connected w1 l st →
  bind (ensureStore api_New (Some l)) k w
  = bind (ensureStore api_New (Some l)) k w1.
Proof.
  intros H Hc. rewrite (bind_Done _ _ _ _ _ H).
  destruct w1 as [h1 ev1]. symmetry. apply bind_Done.
  now apply ensureStore_connected with (st := st).
Qed.

Lemma GetSecret_connected l st h ev path :
  h !! l = Some (mkClient (Some st) false) →
  GetSecret strconv_Quote api_New (Some l) path (mkWorld h ev)
  = match store_Get st path "latest" with
    | inl secret =>
        Done (Password secret, None)
          (mkWorld h (ev ++ [EvLog LDebug "Reading secret" [("path", FString path)];
                             EvStoreGet path "latest";
                             EvLog LDebug "Successfully read secret"
                               [("path", FString path)]]))
    | inr err =>
        Done ("", Some (Errorf_w ("failed to get secret " +:+ strconv_Quote path) err))
          (mkWorld h (ev ++ [EvLog LDebug "Reading secret" [("path", FString path)];
                             EvStoreGet path "latest"]))
    end.
Proof.
  intros H. unfold GetSecret.
  rewrite (bind_Done _ _ _ _ _ (ensureStore_connected _ _ _ ev H)).
  unfold call_Get. unfold_go. lookups H.
  destruct (store_Get st path "latest"); simpl; now rewrite !app_assoc3.
Qed.

Lemma ListSecrets_connected l st h ev prefix :
  h !! l = Some (mkClient (Some st) false) →
  let np := strings.TrimSuffix prefix "/" in
  ListSecrets api_New (Some l) prefix (mkWorld h ev)
  = match store_List st with
    | inl allSecrets =>
        let results := ListSecrets_loop (np +:+ "/") allSecrets [] in
        Done (results, None)
          (mkWorld h (ev ++ [EvLog LDebug "Listing secrets" [("prefix", FString np)];
                             EvStoreList;
                             EvLog LDebug "Listed secrets"
                               [("prefix", FString np);
                                ("count", FInt (Z.of_nat (length results)))]]))
    | inr err =>
        Done ([], Some (Errorf_w "failed to list secrets" err))
          (mkWorld h (ev ++ [EvLog LDebug "Listing secrets" [("prefix", FString np)];
                             EvStoreList]))
    end.
Proof.
  intros H np. unfold ListSecrets.
  rewrite (bind_Done _ _ _ _ _ (ensureStore_connected _ _ _ ev H)).
  unfold call_List. unfold_go. lookups H. fold np.
  destruct (store_List st); simpl; now rewrite !app_assoc3.
Qed.

(** The loop of [ListSecrets] is a filter. *)
Lemma ListSecrets_loop_filter prefix allSecrets results :
  ListSecrets_loop (prefix +:+ "/") allSecrets results
  = results ++ filter (λ path, is_child prefix path = true) allSecrets.
Proof.
  revert results. induction allSecrets as [|path rest IH]; intros results; simpl.
  - now rewrite app_nil_r.
  - rewrite filter_cons.
    destruct (decide (is_child prefix path = true)) as [E|E].
    + unfold is_child in E. apply andb_true_iff in E as [E1 E2].
      apply negb_true_iff in E2. rewrite E1, E2; simpl.
      rewrite IH. now rewrite <- app_assoc.
    + apply not_true_is_false in E. unfold is_child in E.
      destruct (strings.HasPrefix path (prefix +:+ "/")); simpl in *; [|apply IH].
      apply negb_false_iff in E. rewrite E. apply IH.
Qed.

Lemma is_child_spec prefix path :
  is_child prefix path = true
  ↔ ∃ x, path = prefix +:+ "/" +:+ x ∧ strings.Contains x "/" = false.
Proof.
  unfold is_child. rewrite andb_true_iff, negb_true_iff. split.
  - intros [Hp Hc]. exists (strings.TrimPrefix path (prefix +:+ "/")).
    split; [|exact Hc].
    rewrite <- strings_facts.append_assoc.
    now apply strings_facts.HasPrefix_TrimPrefix.
  - intros (x & -> & Hc). rewrite <- strings_facts.append_assoc.
    now rewrite strings_facts.HasPrefix_append, strings_facts.TrimPrefix_append.
Qed.

Lemma is_child_key prefix path :
  is_child prefix path = true →
  path = prefix +:+ "/" +:+ strings.TrimPrefix path (prefix +:+ "/").
Proof.
  intros H. apply andb_true_iff in H as [H _].
  rewrite <- strings_facts.append_assoc.
  now apply strings_facts.HasPrefix_TrimPrefix.
Qed.

(** The loop of [GetEnvSecrets] over a connected store. *)
Lemma GetEnvSecrets_loop_connected l st h prefix secretPaths :
  h !! l = Some (mkClient (Some st) false) →
  ∀ acc ev, ∃ ev',
    GetEnvSecrets_loop strconv_Quote api_New (Some l) prefix secretPaths acc (mkWorld h ev)
    = Done (collect st prefix secretPaths acc) (mkWorld h (ev ++ ev'))
    ∧ ∀ path cause, path ∈ secretPaths →
        store_Get st path "latest" = inr cause →
        skip_warning path
          (Errorf_w ("failed to get secret " +:+ strconv_Quote path) cause) ∈ ev'.
Proof.
  intros H. induction secretPaths as [|path rest IH]; intros acc ev; simpl.
  - exists []. rewrite app_nil_r. split; [reflexivity|].
    intros ? ? Hin. inversion Hin.
  - unfold bind at 1. rewrite (GetSecret_connected _ _ _ _ _ H).
    destruct (store_Get st path "latest") as [secret|err] eqn:Hget.
    + set (read := [EvLog LDebug "Reading secret" [("path", FString path)];
                    EvStoreGet path "latest";
                    EvLog LDebug "Successfully read secret" [("path", FString path)]]).
      destruct (IH (<[strings.TrimPrefix path (prefix +:+ "/") := Password secret]> acc)
                  (ev ++ read)) as (ev' & -> & Hw).
      exists (read ++ ev'). split; [now rewrite <- app_assoc|].
      intros p cause Hin Hp. apply elem_of_cons in Hin as [-> | Hin]; [congruence|].
      apply elem_of_app. right. now apply Hw.
    + set (read := [EvLog LDebug "Reading secret" [("path", FString path)];
                    EvStoreGet path "latest"]).
      set (e := Errorf_w ("failed to get secret " +:+ strconv_Quote path) err).
      unfold tflog_Warn, emit, bind; cbn [heap events]. fold e.
      fold (skip_warning path e).
      destruct (IH acc ((ev ++ read) ++ [skip_warning path e])) as (ev' & -> & Hw).
      exists ((read ++ [skip_warning path e]) ++ ev'). split.
      * now rewrite <- !app_assoc.
      * intros p cause Hin Hp. apply elem_of_cons in Hin as [-> | Hin].
        -- rewrite Hget in Hp. injection Hp as <-.
           apply elem_of_app. left. apply elem_of_app. right.
           now apply list_elem_of_singleton.
        -- apply elem_of_app. right. now apply Hw.
Qed.

Lemma collect_cons st prefix path rest acc :
  collect st prefix (path :: rest) acc
  = collect st prefix rest
      match store_Get st path "latest" with
      | inl secret =>
          <[strings.TrimPrefix path (prefix +:+ "/") := Password secret]> acc
      | inr _ => acc
      end.
Proof. reflexivity. Qed.

(** The map [collect] builds, key by key. *)
Lemma collect_lookup st prefix secretPaths :
  Forall (λ path, is_child prefix path = true) secretPaths →
  ∀ acc k v,
    collect st prefix secretPaths acc !! k = Some v
    ↔ (∃ path secret, path ∈ secretPaths
                      ∧ strings.TrimPrefix path (prefix +:+ "/") = k
                      ∧ store_Get st path "latest" = inl secret
                      ∧ Password secret = v)
      ∨ (acc !! k = Some v
         ∧ ∀ path, path ∈ secretPaths →
                   strings.TrimPrefix path (prefix +:+ "/") = k →
                   ∃ err, store_Get st path "latest" = inr err).
Proof.
  induction 1 as [|path rest Hpath Hrest IH]; intros acc k v.
  - simpl. split.
    + intros H. right. split; [exact H|]. intros ? Hin. inversion Hin.
    + intros [(p & ? & Hin & _) | [H _]]; [inversion Hin | exact H].
  - rewrite collect_cons.
    destruct (store_Get st path "latest") as [secret|err] eqn:Hget.
    + rewrite IH. split.
      * intros [(p & s & Hin & Hk & Hg & Hv) | [Hacc Hfail]].
        -- left. exists p, s. repeat split; try assumption. now apply elem_of_cons; right.
        -- destruct (decide (strings.TrimPrefix path (prefix +:+ "/") = k)) as [E|E].
           ++ left. exists path, secret. subst k.
              rewrite lookup_insert_eq in Hacc. injection Hacc as <-.
              repeat split; try assumption. now apply elem_of_cons; left.
           ++ right. rewrite lookup_insert_ne in Hacc by exact E.
              split; [exact Hacc|]. intros p Hin Hk.
              apply elem_of_cons in Hin as [-> | Hin]; [contradiction | now apply Hfail].
      * intros [(p & s & Hin & Hk & Hg & Hv) | [Hacc Hfail]].
        -- apply elem_of_cons in Hin as [-> | Hin].
           ++ destruct (decide (path ∈ rest)) as [Hmem|Hmem].
              ** left. exists path, s. now repeat split.
              ** right. rewrite Hget in Hg. injection Hg as <-. subst k v.
                 rewrite lookup_insert_eq. split; [reflexivity|].
                 intros p Hin Hk. exfalso. apply Hmem.
                 assert (p = path) as ->; [|exact Hin].
                 rewrite (is_child_key prefix p), (is_child_key prefix path), Hk;
                   [reflexivity | exact Hpath |].
                 eapply Forall_forall in Hrest; [exact Hrest|]. exact Hin.
           ++ left. exists p, s. now repeat split.
        -- right.
           assert (strings.TrimPrefix path (prefix +:+ "/") ≠ k) as E.
           { intros E. destruct (Hfail path) as [err Herr];
               [now apply elem_of_cons; left | exact E | congruence]. }
           rewrite lookup_insert_ne by exact E. split; [exact Hacc|].
           intros p Hin Hk. apply Hfail; [|exact Hk]. now apply elem_of_cons; right.
    + rewrite IH. split.
      * intros [(p & s & Hin & Hk & Hg & Hv) | [Hacc Hfail]].
        -- left. exists p, s. repeat split; try assumption. now apply elem_of_cons; right.
        -- right. split; [exact Hacc|]. intros p Hin Hk.
           apply elem_of_cons in Hin as [-> | Hin]; [eauto | now apply Hfail].
      * intros [(p & s & Hin & Hk & Hg & Hv) | [Hacc Hfail]].
        -- apply elem_of_cons in Hin as [-> | Hin]; [congruence|].
           left. exists p, s. now repeat split.
        -- right. split; [exact Hacc|]. intros p Hin Hk. apply Hfail; [|exact Hk].
           now apply elem_of_cons; right.
Qed.

Lemma ensureStore_dangling l h ev :
  h !! l = None → ensureStore api_New (Some l) (mkWorld h ev) = Panic.
Proof. intros H. unfold ensureStore. unfold_go. now rewrite H. Qed.

(** Every way [ensureStore] can end. *)
Lemma ensureStore_cases c w :
  ensureStore api_New c w = Panic
  ∨ ensureStore api_New c w = Blocked
  ∨ (∃ l st w1, c = Some l ∧ ensureStore api_New c w = Done None w1
                ∧ connected w1 l st)
  ∨ (∃ err w1, ensureStore api_New c w = Done (Some err) w1).
Proof.
  destruct c as [l|]; [|now left]. destruct w as [h ev].
  destruct (h !! l) as [[[st|] [|]]|] eqn:H.
  - right; left. now apply ensureStore_held with (st := Some st).
  - right; right; left. exists l, st, (mkWorld h ev).
    split; [reflexivity|]. split; [now apply ensureStore_connected with (st := st)|exact H].
  - right; left. now apply ensureStore_held with (st := None).
  - destruct (api_New (open_calls ev)) as [st|err] eqn:Hnew.
    + right; right; left. exists l, st. eexists. split; [reflexivity|].
      split; [apply ensureStore_opens; [exact H | exact Hnew]|].
      unfold connected; simpl. eapply lookup_after_insert, H.
    + right; right; right. do 2 eexists. apply ensureStore_fails; [exact H | exact Hnew].
  - left. now apply ensureStore_dangling.
Qed.

(** A listing that succeeded leaves the client connected, and its result
    is the filtered listing of the store. *)
Lemma ListSecrets_ok_inv c prefix w children w1 :
  ListSecrets api_New c prefix w = Done (children, None) w1 →
  ∃ l st allSecrets,
    c = Some l ∧ connected w1 l st ∧ store_List st = inl allSecrets
    ∧ children
      = filter (λ path, is_child (strings.TrimSuffix prefix "/") path = true) allSecrets.
Proof.
  intros HL.
  destruct (ensureStore_cases c w) as [H | [H | [(l & st & w0 & -> & H & Hc) | (e & w0 & H)]]].
  - unfold ListSecrets in HL. now rewrite (bind_Panic _ _ _ H) in HL.
  - unfold ListSecrets in HL. now rewrite (bind_Blocked _ _ _ H) in HL.
  - unfold ListSecrets in HL. rewrite (after_ensureStore _ _ _ _ _ H Hc) in HL.
    fold (ListSecrets api_New (Some l) prefix w0) in HL.
    destruct w0 as [h0 ev0]. rewrite (ListSecrets_connected _ _ _ _ _ Hc) in HL.
    destruct (store_List st) as [allSecrets|err] eqn:Hlist; [|discriminate].
    cbv zeta in HL. rewrite ListSecrets_loop_filter in HL. simpl in HL.
    injection HL as <- <-. exists l, st, allSecrets. unfold connected; simpl. now repeat split.
  - unfold ListSecrets in HL. rewrite (bind_Done _ _ _ _ _ H) in HL. discriminate.
Qed.

Lemma children_are_children prefix allSecrets :
  Forall (λ path, is_child prefix path = true)
    (filter (λ path, is_child prefix path = true) allSecrets).
Proof. apply Forall_forall. intros path Hin. now apply list_elem_of_filter in Hin as [? _]. Qed.

Lemma GetSecret_result_connected l st w path :
  connected w l st →
  result (GetSecret strconv_Quote api_New (Some l) path w)
  = Some match store_Get st path "latest" with
         | inl secret => (Password secret, None)
         | inr cause =>
             ("", Some (Errorf_w ("failed to get secret " +:+ strconv_Quote path) cause))
         end.
Proof.
  destruct w as [h ev]. intros H. rewrite (GetSecret_connected _ _ _ _ _ H).
  now destruct (store_Get st path "latest").
Qed.

(** [ListSecrets] on a client that [connects_to] a store that lists. *)
Lemma ListSecrets_connects w l st allSecrets prefix :
  connects_to api_New w l st →
  store_List st = inl allSecrets →
  ∃ w', ListSecrets api_New (Some l) prefix w
        = Done (filter (λ path, is_child (strings.TrimSuffix prefix "/") path = true)
                  allSecrets, None) w'.
Proof.
  intros Hc Hlist.
  destruct (ensureStore_connects _ _ _ Hc) as (w1 & Hens & Hcon & _).
  unfold ListSecrets. rewrite (after_ensureStore _ _ _ _ _ Hens Hcon).
  fold (ListSecrets api_New (Some l) prefix w1).
  destruct w1 as [h1 ev1]. rewrite (ListSecrets_connected _ _ _ _ _ Hcon), Hlist.
  cbv zeta. rewrite ListSecrets_loop_filter. simpl. eexists. reflexivity.
Qed.

(** [GetSecret] on a client that [connects_to] a store. *)
Lemma GetSecret_connects w l st path :
  connects_to api_New w l st →
  ∃ h1 ev1,
    connected (mkWorld h1 ev1) l st
    ∧ (∃ ev0, ev1 = events w ++ ev0
              ∧ ∀ p r, EvStoreGet p r ∉ ev0)
    ∧ GetSecret strconv_Quote api_New (Some l) path w
      = GetSecret strconv_Quote api_New (Some l) path (mkWorld h1 ev1).
Proof.
  destruct w as [h ev]. intros ([s b] & Hl & Hmu & Hst); simpl in *. subst b.
  destruct Hst as [-> | [-> Hnew]].
  - exists h, ev. split; [exact Hl|]. split; [|reflexivity].
    exists []. split; [now rewrite app_nil_r|]. intros p r Hin. inversion Hin.
  - eexists _, _. split; [|split].
    3: { unfold GetSecret. eapply after_ensureStore.
         - apply ensureStore_opens; [exact Hl | exact Hnew].
         - unfold connected; simpl. eapply lookup_after_insert, Hl. }
    + unfold connected; simpl. eapply lookup_after_insert, Hl.
    + eexists. split; [reflexivity|]. intros p r Hin.
      repeat (apply elem_of_cons in Hin as [Hin|Hin]; [discriminate|]).
      inversion Hin.
Qed.

(** ** Claims about the client wrapper *)

(** C2, amended.  On a client that connects to a store whose listing
    succeeds, [ListSecrets] returns, without error and in the store's
    order, exactly the stored paths of the form [p/x] with no separator in
    [x], where [p] is the given prefix with one trailing separator
    stripped (the prefix itself when it has no trailing separator); in
    particular it returns the empty sequence, not an error, when no stored
    path matches. *)
Theorem ListSecrets_immediate_children w l st allSecrets prefix :
  connects_to api_New w l st →
  store_List st = inl allSecrets →
  let np := strings.TrimSuffix prefix "/" in
  ∃ results w',
    ListSecrets api_New (Some l) prefix w = Done (results, None) w'
    ∧ results = filter (λ path, is_child np path = true) allSecrets
    ∧ (∀ path, path ∈ results ↔
         path ∈ allSecrets
         ∧ ∃ x, path = np +:+ "/" +:+ x ∧ strings.Contains x "/" = false)
    ∧ ((∀ path, path ∈ allSecrets →
          ¬ ∃ x, path = np +:+ "/" +:+ x ∧ strings.Contains x "/" = false) →
       results = [])
    ∧ (strings.HasSuffix prefix "/" = false → np = prefix).
Proof using api_New.
  intros Hc Hlist np.
  destruct (ListSecrets_connects _ _ _ _ prefix Hc Hlist) as [w' HL]. fold np in HL.
  exists (filter (λ path, is_child np path = true) allSecrets), w'.
  split; [exact HL|]. split; [reflexivity|].
  assert (∀ path, path ∈ filter (λ path, is_child np path = true) allSecrets ↔
            path ∈ allSecrets
            ∧ ∃ x, path = np +:+ "/" +:+ x ∧ strings.Contains x "/" = false) as Hmem.
  { intros path. rewrite list_elem_of_filter, is_child_spec.
    split; intros [? ?]; split; assumption. }
  split; [exact Hmem|]. split.
  - intros Hnone. destruct (filter _ allSecrets) as [|path rest] eqn:E; [reflexivity|].
    exfalso. assert (path ∈ path :: rest) as Hin by (apply elem_of_cons; now left).
    apply Hmem in Hin as [Hin Hx]. exact (Hnone path Hin Hx).
  - intros Hs. now apply strings_facts.TrimSuffix_id.
Qed.

(** C3. For a prefix [p] that does not itself end in a separator,
    [ListSecrets] and [GetEnvSecrets] behave on [p/] exactly as on [p]:
    same result, same error, same final world, for every client and
    store. *)
Theorem trailing_separator_invariance c w prefix :
  strings.HasSuffix prefix "/" = false →
  ListSecrets api_New c (prefix +:+ "/") w = ListSecrets api_New c prefix w
  ∧ GetEnvSecrets strconv_Quote api_New c (prefix +:+ "/") w
    = GetEnvSecrets strconv_Quote api_New c prefix w.
Proof.
  intros Hs.
  assert (ListSecrets api_New c (prefix +:+ "/") w = ListSecrets api_New c prefix w) as HL.
  { unfold ListSecrets.
    now rewrite strings_facts.TrimSuffix_append, (strings_facts.TrimSuffix_id _ _ Hs). }
  split; [exact HL|].
  unfold GetEnvSecrets. unfold bind at 1 3. rewrite HL.
  now rewrite strings_facts.TrimSuffix_append, (strings_facts.TrimSuffix_id _ _ Hs).
Qed.


(** C5. [GetEnvSecrets] returns an error exactly when [ListSecrets]
    (store initialization included) returns one, and then it is that
    error; whenever the listing succeeds it returns a nil error and the
    partial map, whatever [GetSecret] answers for the children: the map
    binds a key to a value exactly when a listed child has that relative
    name and [GetSecret] returns that value for it, and for each child on
    which [GetSecret] fails, the warning is logged and the child's key is
    absent from the map. *)
Theorem GetEnvSecrets_fails_only_when_listing_fails c prefix w :
  (∀ children err w1,
      ListSecrets api_New c prefix w = Done (children, Some err) w1 →
      GetEnvSecrets strconv_Quote api_New c prefix w = Done (∅, Some err) w1)
  ∧ (∀ children w1,
      ListSecrets api_New c prefix w = Done (children, None) w1 →
      ∃ m w2,
        GetEnvSecrets strconv_Quote api_New c prefix w = Done (m, None) w2
        ∧ (∀ k v, m !! k = Some v ↔
             ∃ fullPath,
               fullPath ∈ children
               ∧ k = strings.TrimPrefix fullPath (strings.TrimSuffix prefix "/" +:+ "/")
               ∧ result (GetSecret strconv_Quote api_New c fullPath w1)
                 = Some (v, None))
        ∧ ∀ fullPath v err,
            fullPath ∈ children →
            result (GetSecret strconv_Quote api_New c fullPath w1) = Some (v, Some err) →
            skip_warning fullPath err ∈ events w2
            ∧ m !! strings.TrimPrefix fullPath (strings.TrimSuffix prefix "/" +:+ "/")
              = None)
  ∧ (∀ m err w2,
      GetEnvSecrets strconv_Quote api_New c prefix w = Done (m, Some err) w2 →
      ∃ children, ListSecrets api_New c prefix w = Done (children, Some err) w2)
  ∧ (ListSecrets api_New c prefix w = Panic →
     GetEnvSecrets strconv_Quote api_New c prefix w = Panic)
  ∧ (ListSecrets api_New c prefix w = Blocked →
     GetEnvSecrets strconv_Quote api_New c prefix w = Blocked).
Proof.
  assert (∀ children w1,
            ListSecrets api_New c prefix w = Done (children, None) w1 →
            ∃ st m w2,
              (∃ l, c = Some l ∧ connected w1 l st)
              ∧ Forall (λ path, is_child (strings.TrimSuffix prefix "/") path = true)
                  children
              ∧ m = collect st (strings.TrimSuffix prefix "/") children ∅
              ∧ GetEnvSecrets strconv_Quote api_New c prefix w = Done (m, None) w2
              ∧ ∀ path cause, path ∈ children →
                  store_Get st path "latest" = inr cause →
                  skip_warning path
                    (Errorf_w ("failed to get secret " +:+ strconv_Quote path) cause)
                  ∈ events w2) as Hok.
  { intros children w1 HL.
    destruct (ListSecrets_ok_inv _ _ _ _ _ HL) as (l & st & all & -> & Hcon & _ & Hres).
    set (np := strings.TrimSuffix prefix "/") in *.
    assert (Forall (λ path, is_child np path = true) children) as Hch
      by (rewrite Hres; apply children_are_children).
    destruct w1 as [h1 ev1].
    destruct (GetEnvSecrets_loop_connected l st h1 np children Hcon ∅ ev1)
      as (ev' & Hloop & Hwarn).
    exists st, (collect st np children ∅), (mkWorld h1 (ev1 ++ ev')).
    split; [eauto|]. split; [exact Hch|]. split; [reflexivity|]. split.
    - unfold GetEnvSecrets. rewrite (bind_Done _ _ _ _ _ HL). fold np.
      now rewrite (bind_Done _ _ _ _ _ Hloop).
    - intros path cause Hin Hg. simpl. apply elem_of_app. right. now apply Hwarn. }
  split; [|split; [|split; [|split]]].
  - intros children err w1 HL.
    unfold GetEnvSecrets. now rewrite (bind_Done _ _ _ _ _ HL).
  - intros children w1 HL.
    destruct (Hok _ _ HL) as (st & m & w2 & (l & -> & Hcon) & Hch & -> & HG & Hwarn).
    set (np := strings.TrimSuffix prefix "/") in *.
    exists (collect st np children ∅), w2. split; [exact HG|]. split.
    { intros k v. rewrite (collect_lookup _ _ _ Hch). split.
      - intros [(path & secret & Hin & Hk & Hg & Hv) | [Hempty _]];
          [|now rewrite lookup_empty in Hempty].
        exists path. split; [exact Hin|]. split; [now symmetry|].
        rewrite (GetSecret_result_connected _ _ _ _ Hcon), Hg. now subst v.
      - intros (path & Hin & Hk & Hg). left.
        rewrite (GetSecret_result_connected _ _ _ _ Hcon) in Hg.
        destruct (store_Get st path "latest") as [secret|cause] eqn:Hget; [|discriminate].
        injection Hg as <-. exists path, secret. now repeat split. }
    intros path v err Hin Hg.
    rewrite (GetSecret_result_connected _ _ _ _ Hcon) in Hg.
    destruct (store_Get st path "latest") as [secret|cause] eqn:Hget; [discriminate|].
    injection Hg as <- <-. split; [now apply Hwarn|].
    destruct (collect st np children ∅ !! strings.TrimPrefix path (np +:+ "/"))
      as [v|] eqn:E; [|reflexivity]. exfalso.
    apply (collect_lookup _ _ _ Hch) in E
      as [(p & secret & Hp & Hk & Hgp & _) | [Hempty _]];
      [|now rewrite lookup_empty in Hempty].
    assert (p = path) as ->; [|congruence].
    rewrite (is_child_key np p), (is_child_key np path), Hk; [reflexivity | |];
      (eapply Forall_forall in Hch; [exact Hch | assumption]).
  - intros m err w2 HG.
    destruct (ListSecrets api_New c prefix w) as [[children [e|]] w1| |] eqn:HL.
    + unfold GetEnvSecrets in HG. rewrite (bind_Done _ _ _ _ _ HL) in HG.
      injection HG as <- <- <-. now exists children.
    + destruct (Hok _ _ eq_refl) as (st & m' & w2' & _ & _ & _ & HG' & _). congruence.
    + unfold GetEnvSecrets in HG. now rewrite (bind_Panic _ _ _ HL) in HG.
    + unfold GetEnvSecrets in HG. now rewrite (bind_Blocked _ _ _ HL) in HG.
  - intros HL. unfold GetEnvSecrets. now rewrite (bind_Panic _ _ _ HL).
  - intros HL. unfold GetEnvSecrets. now rewrite (bind_Blocked _ _ _ HL).
Qed.

(** C6. On a client that connects to a store, [GetSecret] asks the store
    for the [latest] revision of the path, once.  When the store answers
    with a secret, the result is its password and a nil error.  When the
    store answers with an error (the path is absent, or the call failed),
    the result carries a non-nil error that wraps that cause and whose
    text names the quoted path and the cause's text: never a success. *)
Theorem GetSecret_latest_or_error w l st path :
  connects_to api_New w l st →
  ∃ w' ev',
    events w' = events w ++ ev'
    ∧ (∀ p r, EvStoreGet p r ∈ ev' ↔ p = path ∧ r = "latest")
    ∧ match store_Get st path "latest" with
      | inl secret =>
          GetSecret strconv_Quote api_New (Some l) path w
          = Done (Password secret, None) w'
      | inr cause =>
          ∃ err,
            GetSecret strconv_Quote api_New (Some l) path w = Done ("", Some err) w'
            ∧ err = Errorf_w ("failed to get secret " +:+ strconv_Quote path) cause
            ∧ Unwrap err = Some cause
            ∧ strings.Contains (Error err) (strconv_Quote path) = true
            ∧ strings.Contains (Error err) (Error cause) = true
      end.
Proof.
  intros Hc.
  destruct (GetSecret_connects _ _ _ path Hc)
    as (h1 & ev1 & Hcon & (ev0 & -> & Hno) & ->).
  rewrite (GetSecret_connected _ _ _ _ _ Hcon).
  set (reading := EvLog LDebug "Reading secret" [("path", FString path)]).
  set (read := EvLog LDebug "Successfully read secret" [("path", FString path)]).
  destruct (store_Get st path "latest") as [secret|cause].
  - exists (mkWorld h1 ((events w ++ ev0) ++ [reading; EvStoreGet path "latest"; read])),
      (ev0 ++ [reading; EvStoreGet path "latest"; read]).
    split; [simpl; now rewrite <- app_assoc|]. split; [|reflexivity].
    intros p r. rewrite elem_of_app, !elem_of_cons. split.
    + intros [Hin | [[=] | [[= -> ->] | [[=] | Hin]]]];
        [now apply Hno in Hin | now split | inversion Hin].
    + intros [-> ->]. right; right; now left.
  - exists (mkWorld h1 ((events w ++ ev0) ++ [reading; EvStoreGet path "latest"])),
      (ev0 ++ [reading; EvStoreGet path "latest"]).
    split; [simpl; now rewrite <- app_assoc|]. split.
    + intros p r. rewrite elem_of_app, !elem_of_cons. split.
      * intros [Hin | [[=] | [[= -> ->] | Hin]]];
          [now apply Hno in Hin | now split | inversion Hin].
      * intros [-> ->]. right; right; now left.
    + eexists. split; [reflexivity|]. split; [reflexivity|]. split; [reflexivity|].
      simpl. split.
      * apply strings_facts.Contains_spec.
        exists "failed to get secret ", (": " +:+ Error cause).
        now rewrite strings_facts.append_assoc.
      * apply strings_facts.Contains_spec.
        exists (("failed to get secret " +:+ strconv_Quote path) +:+ ": "), "".
        now rewrite strings_facts.append_nil_r, !strings_facts.append_assoc.
Qed.

(** C7. [Close] on an unlocked client returns without a result that could
    carry an error; afterwards the handle is nil and the mutex free.  If
    a store was open and has a [Close] method, that method is called once
    and an error it returns is only logged as a warning; if no store was
    open (no successful connect, or already closed), nothing happens at
    all.  A repeated [Close] is such a no-op. *)
Theorem Close_releases_and_is_idempotent w l obj :
  heap w !! l = Some obj →
  mu obj = false →
  ∃ w' ev',
    Close (Some l) w = Done tt w'
    ∧ heap w' = <[l := mkClient None false]> (heap w)
    ∧ heap w' !! l = Some (mkClient None false)
    ∧ events w' = events w ++ ev'
    ∧ ev' = match store obj with
            | None => []
            | Some st =>
                match store_Close st with
                | None => []
                | Some None => [EvStoreClose]
                | Some (Some err) =>
                    [EvStoreClose;
                     EvLog LWarn "Error closing gopass store"
                       [("error", FString (Error err))]]
                end
            end
    ∧ (store obj = None → w' = w)
    ∧ Close (Some l) w' = Done tt w'.
Proof.
  destruct w as [h ev], obj as [st b]; simpl. intros H ->.
  assert (∀ h' ev', h' !! l = Some (mkClient None false) →
            Close (Some l) (mkWorld h' ev') = Done tt (mkWorld h' ev')) as Hnoop.
  { intros h' ev' H'. unfold Close. unfold_go. lookups H'. now rewrite list_insert_id. }
  pose proof (lookup_after_insert _ _ _ (mkClient None false) H) as Hafter.
  destruct st as [st|].
  - exists (mkWorld (<[l := mkClient None false]> h)
              (ev ++ match store_Close st with
                     | None => []
                     | Some None => [EvStoreClose]
                     | Some (Some err) =>
                         [EvStoreClose;
                          EvLog LWarn "Error closing gopass store"
                            [("error", FString (Error err))]]
                     end)).
    eexists. split; [|split; [reflexivity|]; split; [exact Hafter|];
                      split; [reflexivity|]; split; [reflexivity|];
                      split; [discriminate | now apply Hnoop]].
    unfold Close. unfold_go. lookups H.
    destruct (store_Close st) as [[err|]|]; simpl; lookups H;
      rewrite ?app_assoc3, ?app_nil_r; reflexivity.
  - exists (mkWorld h ev), []. rewrite (Hnoop _ _ H), app_nil_r. simpl.
    split; [reflexivity|]. split; [symmetry; now apply list_insert_id|].
    now repeat split.
Qed.

End Properties.

(** * Concurrent callers of [ensureStore] *)

Section Concurrency.

Variable api_New : nat → Store + error.
Variable l : loc.
Variable n0 : nat.

(** What one step of a goroutine does to the shared cell and the trace. *)
Lemma thread_step_cases pc st held h ev :
  h !! l = Some (mkClient st held) →
  match pc with
  | AtLock =>
      if held then thread_step api_New (Some l) pc (mkWorld h ev) = Blocked
      else thread_step api_New (Some l) pc (mkWorld h ev)
           = Done AtCheck (mkWorld (<[l := mkClient st true]> h) ev)
  | AtCheck =>
      thread_step api_New (Some l) pc (mkWorld h ev)
      = match st with
        | Some _ => Done (AtUnlock None) (mkWorld h ev)
        | None =>
            Done AtNew
              (mkWorld h (ev ++ [EvLog LDebug "Initializing gopass store" []]))
        end
  | AtNew =>
      thread_step api_New (Some l) pc (mkWorld h ev)
      = Done match api_New (open_calls ev) with
             | inl s => AtAssign s
             | inr err =>
                 AtUnlock (Some (Errorf_w "failed to initialize gopass store" err))
             end
          (mkWorld h (ev ++ [EvApiNew]))
  | AtAssign s =>
      thread_step api_New (Some l) pc (mkWorld h ev)
      = Done (AtUnlock None)
          (mkWorld (<[l := mkClient (Some s) held]> h)
             (ev ++ [EvLog LDebug "Gopass store initialized" []]))
  | AtUnlock r =>
      thread_step api_New (Some l) pc (mkWorld h ev)
      = Done (Returned r) (mkWorld (<[l := mkClient st false]> h) ev)
  | Returned _ => thread_step api_New (Some l) pc (mkWorld h ev) = Blocked
  end.
Proof.
  intros H. destruct pc; simpl; try reflexivity.
  - destruct held; unfold_go; now lookups H.
  - unfold_go. lookups H. now destruct st.
  - unfold_go. now destruct (api_New (open_calls ev)).
  - unfold_go. now lookups H.
  - unfold_go. now lookups H.
Qed.

Lemma open_calls_log ev lvl msg fields :
  open_calls (ev ++ [EvLog lvl msg fields]) = open_calls ev.
Proof. rewrite open_calls_app. simpl. unfold open_calls; simpl. lia. Qed.

Lemma open_calls_new ev : open_calls (ev ++ [EvApiNew]) = S (open_calls ev).
Proof. rewrite open_calls_app. unfold open_calls; simpl. lia. Qed.

(** Lookups in the goroutine table after goroutine [i] moved. *)
Lemma moved_lookup (pcs : list Pc) i pc' j y :
  <[i := pc']> pcs !! j = Some y →
  (j = i ∧ y = pc') ∨ (j ≠ i ∧ pcs !! j = Some y).
Proof.
  intros H. apply list_lookup_insert_Some in H as [(-> & -> & _) | [Hne H]]; auto.
Qed.

Lemma moved_self (pcs : list Pc) i pc pc' :
  pcs !! i = Some pc → <[i := pc']> pcs !! i = Some pc'.
Proof. intros H. apply list_lookup_insert_eq. eapply lookup_lt_Some, H. Qed.

Lemma moved_other (pcs : list Pc) i pc' j :
  j ≠ i → <[i := pc']> pcs !! j = pcs !! j.
Proof. intros H. now apply list_lookup_insert_ne. Qed.

(** The goroutine that is in the critical section is the only one. *)
Lemma holder_others_idle (pcs : list Pc) (i : nat) pc :
  mutex_inv pcs true → pcs !! i = Some pc → critical pc = true →
  others_idle pcs i.
Proof.
  intros (k & pck & Hk & Hck & Hidle) Hi Hc.
  destruct (decide (i = k)) as [->|Hne]; [exact Hidle|].
  rewrite (Hidle i pc Hne Hi) in Hc. discriminate.
Qed.

Lemma critical_needs_mutex (pcs : list Pc) held (i : nat) pc :
  mutex_inv pcs held → pcs !! i = Some pc → critical pc = true → held = true.
Proof.
  destruct held; [reflexivity|]. intros Hm Hi Hc.
  rewrite (Hm i pc Hi) in Hc. discriminate.
Qed.

Lemma mutex_inv_enter (pcs : list Pc) (i : nat) pc pc' :
  mutex_inv pcs false → pcs !! i = Some pc → critical pc' = true →
  mutex_inv (<[i := pc']> pcs) true.
Proof.
  intros Hm Hi Hc. exists i, pc'. split; [eapply moved_self, Hi|]. split; [exact Hc|].
  intros j y Hne Hj. rewrite moved_other in Hj by exact Hne. eapply Hm, Hj.
Qed.

Lemma mutex_inv_stay (pcs : list Pc) (i : nat) pc pc' :
  mutex_inv pcs true → pcs !! i = Some pc → critical pc = true →
  critical pc' = true → mutex_inv (<[i := pc']> pcs) true.
Proof.
  intros Hm Hi Hc Hc'. pose proof (holder_others_idle _ _ _ Hm Hi Hc) as Hidle.
  exists i, pc'. split; [eapply moved_self, Hi|]. split; [exact Hc'|].
  intros j y Hne Hj. rewrite moved_other in Hj by exact Hne. eapply Hidle; eauto.
Qed.

Lemma mutex_inv_leave (pcs : list Pc) (i : nat) pc pc' :
  mutex_inv pcs true → pcs !! i = Some pc → critical pc = true →
  critical pc' = false → mutex_inv (<[i := pc']> pcs) false.
Proof.
  intros Hm Hi Hc Hc'. pose proof (holder_others_idle _ _ _ Hm Hi Hc) as Hidle.
  intros j y Hj. apply moved_lookup in Hj as [[-> ->] | [Hne Hj]]; [exact Hc'|].
  eapply Hidle; eauto.
Qed.

Lemma moved_all (P : Pc → Prop) (pcs : list Pc) (i : nat) pc' :
  (∀ j pc, pcs !! j = Some pc → P pc) → P pc' →
  ∀ j pc, <[i := pc']> pcs !! j = Some pc → P pc.
Proof.
  intros Hall Hnew j pc Hj.
  apply moved_lookup in Hj as [[-> ->] | [_ Hj]]; [exact Hnew | eapply Hall, Hj].
Qed.

(** When the moving goroutine holds the mutex, the others are idle, which
    narrows where they can be. *)
Lemma moved_idle (P Q : Pc → Prop) (pcs : list Pc) (i : nat) pc' :
  (∀ j pc, pcs !! j = Some pc → P pc) → others_idle pcs i →
  (∀ pc, P pc → critical pc = false → Q pc) → Q pc' →
  ∀ j pc, <[i := pc']> pcs !! j = Some pc → Q pc.
Proof.
  intros Hall Hidle HPQ Hnew j pc Hj.
  apply moved_lookup in Hj as [[-> ->] | [Hne Hj]]; [exact Hnew|].
  apply HPQ; [eapply Hall, Hj | eapply Hidle; eauto].
Qed.

Lemma moved_errors (pcs : list Pc) (i : nat) pc pc' :
  ((∃ j y, pcs !! j = Some y ∧ has_error y = true) → ∃ e, api_New n0 = inr e) →
  pcs !! i = Some pc →
  (has_error pc' = true → has_error pc = true ∨ ∃ e, api_New n0 = inr e) →
  (∃ j y, <[i := pc']> pcs !! j = Some y ∧ has_error y = true) →
  ∃ e, api_New n0 = inr e.
Proof.
  intros He Hi Hnew (j & y & Hj & Hy).
  apply moved_lookup in Hj as [[-> ->] | [_ Hj]]; [|apply He; eauto].
  destruct (Hnew Hy) as [Hold | Hfail]; [apply He; eauto | exact Hfail].
Qed.

Lemma okA_idle_okB s pc : okA pc → critical pc = false → okB s pc.
Proof. destruct pc as [| | | |[?|]|[?|]]; simpl; try tauto; discriminate. Qed.

Lemma okB_idle_okC s pc : okB s pc → critical pc = false → okC pc.
Proof. destruct pc as [| | | |[?|]|[?|]]; simpl; try tauto; discriminate. Qed.

Lemma fails_before_first m e :
  n0 ≤ m → fails_before api_New n0 m → api_New m = inr e → ∃ e', api_New n0 = inr e'.
Proof.
  intros Hle Hf Hm. destruct (decide (m = n0)) as [->|Hne]; [eauto|].
  apply Hf; lia.
Qed.

Lemma fails_before_S m e :
  fails_before api_New n0 m → api_New m = inr e → fails_before api_New n0 (S m).
Proof.
  intros Hf Hm k Hk1 Hk2. destruct (decide (k = m)) as [->|Hne]; [eauto|].
  apply Hf; lia.
Qed.

(** One scheduling step preserves the invariant. *)
Lemma sched_step_Inv cfg i :
  Inv api_New n0 l cfg → Inv api_New n0 l (sched_step api_New (Some l) cfg i).
Proof.
  destruct cfg as [pcs [h ev]]. intros Hinv.
  pose proof Hinv as ([st held] & Hl & Hm & Hp & He). simpl in *.
  unfold sched_step; simpl.
  destruct (pcs !! i) as [pc|] eqn:Hi; [|exact Hinv].
  pose proof (thread_step_cases pc st held h ev Hl) as Hstep.
  pose proof (lookup_after_insert h l (mkClient st held)) as Hcell.
  destruct pc as [| | |s|r|r].
  - (* at the lock *)
    destruct held; rewrite Hstep; [exact Hinv|].
    exists (mkClient st true); simpl.
    split; [now apply Hcell|]. split; [eapply mutex_inv_enter; eauto|]. split.
    + destruct Hp as [(-> & Hle & Hf & Hall) | [(s & k & -> & Hcalls & Hle & Hs & Hf & Hall & j & Hj)
                                                | (s & k & -> & Hcalls & Hle & Hs & Hf & Hall)]].
      * left. repeat split; try assumption. eapply moved_all; eauto; exact I.
      * specialize (Hm j _ Hj). discriminate.
      * right; right. exists s, k. repeat split; try assumption.
        eapply moved_all; eauto; exact I.
    + eapply moved_errors; eauto; discriminate.
  - (* at the nil test *)
    pose proof (critical_needs_mutex _ _ _ _ Hm Hi eq_refl) as ->.
    rewrite Hstep.
    destruct Hp as [(-> & Hle & Hf & Hall) | [(s & k & -> & Hcalls & Hle & Hs & Hf & Hall & j & Hj)
                                              | (s & k & -> & Hcalls & Hle & Hs & Hf & Hall)]].
    + exists (mkClient None true); simpl.
      split; [exact Hl|]. split; [eapply mutex_inv_stay; eauto|]. split.
      * left. rewrite open_calls_log. repeat split; try assumption.
        eapply moved_all; eauto; exact I.
      * eapply moved_errors; eauto; discriminate.
    + destruct (Hall _ _ Hi).
    + exists (mkClient (Some s) true); simpl.
      split; [exact Hl|]. split; [eapply mutex_inv_stay; eauto|]. split.
      * right; right. exists s, k. repeat split; try assumption.
        eapply moved_all; eauto; exact I.
      * eapply moved_errors; eauto; discriminate.
  - (* at the open call *)
    pose proof (critical_needs_mutex _ _ _ _ Hm Hi eq_refl) as ->.
    pose proof (holder_others_idle _ _ _ Hm Hi eq_refl) as Hidle.
    rewrite Hstep.
    destruct Hp as [(-> & Hle & Hf & Hall) | [(s & k & -> & Hcalls & Hle & Hs & Hf & Hall & j & Hj)
                                              | (s & k & -> & Hcalls & Hle & Hs & Hf & Hall)]].
    + exists (mkClient None true); simpl. rewrite open_calls_new.
      split; [exact Hl|].
      destruct (api_New (open_calls ev)) as [s|err] eqn:Hnew.
      * split; [eapply mutex_inv_stay; eauto|]. split.
        -- right; left. exists s, (open_calls ev). repeat split; try assumption.
           ++ eapply moved_idle; eauto using okA_idle_okB; reflexivity.
           ++ exists i. eapply moved_self, Hi.
        -- eapply moved_errors; eauto; discriminate.
      * split; [eapply mutex_inv_stay; eauto|]. split.
        -- left. repeat split; [lia | eapply fails_before_S; eauto |].
           eapply moved_all; eauto; exact I.
        -- eapply moved_errors; eauto. intros _. right.
           eapply fails_before_first; eauto.
    + destruct (Hall _ _ Hi).
    + destruct (Hall _ _ Hi).
  - (* at the assignment *)
    pose proof (critical_needs_mutex _ _ _ _ Hm Hi eq_refl) as ->.
    pose proof (holder_others_idle _ _ _ Hm Hi eq_refl) as Hidle.
    rewrite Hstep.
    destruct Hp as [(-> & Hle & Hf & Hall) | [(s' & k & -> & Hcalls & Hle & Hs & Hf & Hall & j & Hj)
                                              | (s' & k & -> & Hcalls & Hle & Hs & Hf & Hall)]].
    + destruct (Hall _ _ Hi).
    + pose proof (Hall _ _ Hi) as Heq. simpl in Heq. subst s'.
      exists (mkClient (Some s) true); simpl. rewrite open_calls_log.
      split; [now apply Hcell|]. split; [eapply mutex_inv_stay; eauto|]. split.
      * right; right. exists s, k. repeat split; try assumption.
        eapply moved_idle; eauto using okB_idle_okC; exact I.
      * eapply moved_errors; eauto; discriminate.
    + destruct (Hall _ _ Hi).
  - (* at the unlock *)
    pose proof (critical_needs_mutex _ _ _ _ Hm Hi eq_refl) as ->.
    rewrite Hstep.
    exists (mkClient st false); simpl.
    split; [now apply Hcell|]. split; [eapply mutex_inv_leave; eauto|]. split.
    + destruct Hp as [(-> & Hle & Hf & Hall) | [(s & k & -> & Hcalls & Hle & Hs & Hf & Hall & j & Hj)
                                                | (s & k & -> & Hcalls & Hle & Hs & Hf & Hall)]].
      * left. repeat split; try assumption. eapply moved_all; eauto.
        pose proof (Hall _ _ Hi) as Hok. now destruct r.
      * right; left. exists s, k. repeat split; try assumption.
        -- eapply moved_all; eauto. pose proof (Hall _ _ Hi) as Hok. now destruct r.
        -- exists j. rewrite moved_other; [exact Hj|]. intros ->. congruence.
      * right; right. exists s, k. repeat split; try assumption.
        eapply moved_all; eauto; exact I.
    + eapply moved_errors; eauto.
  - (* returned *)
    rewrite Hstep. exact Hinv.
Qed.

Lemma run_Inv sched cfg :
  Inv api_New n0 l cfg → Inv api_New n0 l (run api_New (Some l) sched cfg).
Proof.
  revert cfg. induction sched as [|i sched IH]; intros cfg H; [exact H|].
  simpl. apply IH. now apply sched_step_Inv.
Qed.

Lemma run_length sched cfg :
  length (fst (run api_New (Some l) sched cfg)) = length (fst cfg).
Proof.
  revert cfg. induction sched as [|i sched IH]; intros cfg; [reflexivity|].
  simpl. rewrite IH. unfold sched_step.
  destruct (fst cfg !! i); [|reflexivity].
  destruct (thread_step _ _ _ _); simpl; [apply length_insert | reflexivity..].
Qed.

(** Callers that all start at the lock, on an unconnected, unlocked
    client, satisfy the invariant. *)
Lemma Inv_initial h ev n :
  h !! l = Some (mkClient None false) → n0 = open_calls ev →
  Inv api_New n0 l (replicate n AtLock, mkWorld h ev).
Proof.
  intros Hl ->. exists (mkClient None false); simpl.
  assert (∀ j pc, replicate n AtLock !! j = Some pc → pc = AtLock) as Hall
    by (intros j pc Hj; now apply lookup_replicate in Hj as [-> _]).
  split; [exact Hl|]. split; [|split].
  - intros j pc Hj. now rewrite (Hall _ _ Hj).
  - left. repeat split; [lia | intros k ? ?; lia |].
    intros j pc Hj. now rewrite (Hall _ _ Hj).
  - intros (j & pc & Hj & Hpc). rewrite (Hall _ _ Hj) in Hpc. discriminate.
Qed.

End Concurrency.

Section LazyConnect.

Variable api_New : nat → Store + error.

Lemma sched_step_alone l pc w pc' w' :
  thread_step api_New (Some l) pc w = Done pc' w' →
  sched_step api_New (Some l) ([pc], w) 0 = ([pc'], w').
Proof. unfold sched_step; simpl. now intros ->. Qed.

Lemma sched_step_returned l r w :
  sched_step api_New (Some l) ([Returned r], w) 0 = ([Returned r], w).
Proof. reflexivity. Qed.

(** A goroutine that runs alone takes the steps of [ensureStore]. *)
Lemma run_alone l st h ev r w' :
  h !! l = Some (mkClient st false) →
  ensureStore api_New (Some l) (mkWorld h ev) = Done r w' →
  run api_New (Some l) [0; 0; 0; 0; 0] ([AtLock], mkWorld h ev) = ([Returned r], w').
Proof.
  intros H Hens. unfold run; cbn [fold_left].
  pose proof (thread_step_cases api_New l AtLock _ _ _ ev H) as S1.
  lazy beta iota in S1. rewrite (sched_step_alone _ _ _ _ _ S1).
  pose proof (lookup_after_insert _ _ _ (mkClient st true) H) as H1.
  pose proof (thread_step_cases api_New l AtCheck _ _ _ ev H1) as S2.
  destruct st as [st|]; lazy beta iota in S2; rewrite (sched_step_alone _ _ _ _ _ S2).
  - rewrite (ensureStore_connected _ _ _ _ _ H) in Hens. injection Hens as <- <-.
    pose proof (thread_step_cases api_New l (AtUnlock None) _ _ _ ev H1) as S3.
    lazy beta iota in S3.
    rewrite (sched_step_alone _ _ _ _ _ S3), !sched_step_returned.
    now rewrite list_insert_insert_eq, list_insert_id.
  - set (ev1 := ev ++ [EvLog LDebug "Initializing gopass store" []]).
    pose proof (thread_step_cases api_New l AtNew _ _ _ ev1 H1) as S3.
    lazy beta iota in S3. rewrite (sched_step_alone _ _ _ _ _ S3).
    unfold ev1 at 1. rewrite open_calls_log.
    destruct (api_New (open_calls ev)) as [s|err] eqn:Hnew.
    + rewrite (ensureStore_opens _ _ _ _ _ H Hnew) in Hens. injection Hens as <- <-.
      pose proof (thread_step_cases api_New l (AtAssign s) _ _ _ (ev1 ++ [EvApiNew]) H1)
        as S4.
      lazy beta iota in S4. rewrite (sched_step_alone _ _ _ _ _ S4).
      pose proof (lookup_after_insert _ _ _ (mkClient (Some s) true) H1) as H2.
      pose proof (thread_step_cases api_New l (AtUnlock None) _ _ _
                    ((ev1 ++ [EvApiNew]) ++ [EvLog LDebug "Gopass store initialized" []])
                    H2) as S5.
      lazy beta iota in S5. rewrite (sched_step_alone _ _ _ _ _ S5).
      rewrite !list_insert_insert_eq. unfold ev1. now rewrite !app_assoc3.
    + rewrite (ensureStore_fails _ _ _ _ _ H Hnew) in Hens. injection Hens as <- <-.
      pose proof (thread_step_cases api_New l
                    (AtUnlock (Some (Errorf_w "failed to initialize gopass store" err)))
                    _ _ _ (ev1 ++ [EvApiNew]) H1) as S4.
      lazy beta iota in S4.
      rewrite (sched_step_alone _ _ _ _ _ S4), sched_step_returned.
      rewrite list_insert_insert_eq, list_insert_id by exact H.
      unfold ev1. now rewrite !app_assoc3.
Qed.

(** C8, amended.  (1) After a call of [ensureStore] that returned nil, a
    further call returns nil and changes nothing.  For [n] goroutines
    that call [ensureStore] concurrently on an unconnected client, under
    any schedule: (2) an [api.New] call that succeeds is the last one
    made, so at most one store is ever opened; (3) when the first
    [api.New] call succeeds and all goroutines have returned, exactly one
    [api.New] call was made, every goroutine returned nil, and the client
    holds that store with the mutex free.  (4) A call whose [api.New]
    fails returns the wrapped error and leaves the handle nil, so the next
    call opens again. *)
Theorem ensureStore_lazy_connect l h ev n sched :
  h !! l = Some (mkClient None false) →
  let n0 := open_calls ev in
  let final := run api_New (Some l) sched (replicate n AtLock, mkWorld h ev) in
  let calls := open_calls (events (snd final)) in
  (∀ c w w1, ensureStore api_New c w = Done None w1 →
             ensureStore api_New c w1 = Done None w1)
  ∧ (∀ k s, n0 ≤ k → k < calls → api_New k = inl s → calls = S k)
  ∧ (∀ s0, api_New n0 = inl s0 → 0 < n →
           Forall (λ pc, is_Returned pc = true) (fst final) →
           calls = S n0
           ∧ Forall (λ pc, pc = Returned None) (fst final)
           ∧ heap (snd final) !! l = Some (mkClient (Some s0) false))
  ∧ (∀ e, api_New n0 = inr e →
          ∃ w1, ensureStore api_New (Some l) (mkWorld h ev)
                = Done (Some (Errorf_w "failed to initialize gopass store" e)) w1
                ∧ heap w1 = h
                ∧ open_calls (events w1) = S n0).
Proof.
  intros Hl n0 final calls.
  pose proof (run_Inv api_New l n0 sched _ (Inv_initial api_New l n0 h ev n Hl eq_refl))
    as ([st held] & Hcell & Hm & Hp & He).
  fold final in Hcell, Hm, Hp, He. simpl in Hm, Hp. fold calls in Hp.
  split; [|split; [|split]].
  4: { intros e Hfail. eexists. split; [now apply ensureStore_fails|].
       split; [reflexivity|]. simpl. rewrite open_calls_app.
       change (open_calls [EvLog LDebug "Initializing gopass store" []; EvApiNew]) with 1.
       unfold n0. lia. }
  - intros c w w1 Hens.
    destruct (ensureStore_cases api_New c w)
      as [H | [H | [(l' & st' & w0 & -> & H & Hc) | (e & w0 & H)]]]; try congruence.
    assert (w0 = w1) as -> by congruence.
    destruct w1 as [h1 ev1]. now apply ensureStore_connected with (st := st').
  - intros k s Hk1 Hk2 Hs.
    destruct Hp as [(-> & Hle & Hf & Hall) | [(s' & k' & -> & Hcalls & Hle & Hs' & Hf & _)
                                              | (s' & k' & -> & Hcalls & Hle & Hs' & Hf & _)]].
    + destruct (Hf k Hk1 Hk2) as [e He']. congruence.
    + destruct (decide (k = k')) as [->|Hne]; [exact Hcalls|].
      destruct (Hf k Hk1) as [e He']; [lia | congruence].
    + destruct (decide (k = k')) as [->|Hne]; [exact Hcalls|].
      destruct (Hf k Hk1) as [e He']; [lia | congruence].
  - intros s0 Hs0 Hn Hret.
    assert (∀ j pc, fst final !! j = Some pc → ∃ r, pc = Returned r) as Hdone.
    { intros j pc Hj. eapply Forall_lookup_1 in Hret; [|exact Hj].
      destruct pc; try discriminate. eauto. }
    assert (∀ j pc, fst final !! j = Some pc → pc = Returned None) as Hnil.
    { intros j pc Hj. destruct (Hdone _ _ Hj) as [[e|] ->]; [|reflexivity].
      destruct He as [e' He']; [exists j; eauto | congruence]. }
    assert (∃ pc, fst final !! 0 = Some pc) as [pc0 Hpc0].
    { apply lookup_lt_is_Some. unfold final. rewrite run_length; simpl.
      rewrite length_replicate. exact Hn. }
    assert (held = false) as ->.
    { destruct held; [|reflexivity]. destruct Hm as (i & pc & Hi & Hc & _).
      rewrite (Hnil _ _ Hi) in Hc. discriminate. }
    destruct Hp as [(-> & Hle & Hf & Hall) | [(s' & k' & -> & Hcalls & Hle & Hs' & Hf & _ & i & Hi)
                                              | (s' & k' & -> & Hcalls & Hle & Hs' & Hf & _)]].
    + pose proof (Hall _ _ Hpc0) as Hok. rewrite (Hnil _ _ Hpc0) in Hok. destruct Hok.
    + discriminate (Hnil _ _ Hi).
    + assert (k' = n0) as ->.
      { destruct (decide (k' = n0)) as [E|E]; [exact E|].
        destruct (Hf n0) as [e He']; [lia | lia | congruence]. }
      split; [exact Hcalls|]. split.
      * apply Forall_lookup_2. exact Hnil.
      * rewrite Hcell. congruence.
Qed.

End LazyConnect.

(** * The resource and the provider *)

Lemma Severity_eqb_eq (a b : Severity) : Severity_eqb a b = true ↔ a = b.
Proof. destruct a, b; simpl; split; congruence. Qed.

Lemma Diagnostic_Equal_eq (a b : Diagnostic) : Diagnostic_Equal a b = true ↔ a = b.
Proof.
  destruct a as [sa ua da], b as [sb ub db]. unfold Diagnostic_Equal; simpl.
  rewrite !andb_true_iff, Severity_eqb_eq, !String.eqb_eq. split.
  - now intros [[-> ->] ->].
  - intros [= -> -> ->]. now repeat split.
Qed.

Lemma Contains_elem (diags : diag.Diagnostics) (d : Diagnostic) :
  diag.Contains diags d = true ↔ d ∈ diags.
Proof.
  unfold diag.Contains. rewrite existsb_exists. split.
  - intros (x & Hin & Heq). apply Diagnostic_Equal_eq in Heq as ->.
    now apply list_elem_of_In.
  - intros Hin. exists d. split; [now apply list_elem_of_In | now apply Diagnostic_Equal_eq].
Qed.

(** [AddError] leaves the diagnostic in the list and the list in error. *)
Lemma AddError_elem (diags : diag.Diagnostics) (summary detail : string) :
  diag.NewErrorDiagnostic summary detail ∈ diag.AddError diags summary detail.
Proof.
  unfold diag.AddError; simpl.
  destruct (diag.Contains diags _) eqn:E.
  - now apply Contains_elem.
  - apply elem_of_app. right. now apply list_elem_of_singleton.
Qed.

Lemma HasError_elem (diags : diag.Diagnostics) (d : Diagnostic) :
  d ∈ diags → Severity_of d = SeverityError → diag.HasError diags = true.
Proof.
  intros Hin Hsev. unfold diag.HasError. apply existsb_exists.
  exists d. split; [now apply list_elem_of_In | now rewrite Hsev].
Qed.

Section Resource.

Variable strconv_Quote : string → string.
Variable api_New : nat → Store + error.

(** C9. Take an [Open] whose configuration is read without error, and
    let [GetSecret] be called for the configured path (after the debug
    line [Open] logs first).  If it returns an error, [Open] returns with
    the error diagnostic [Failed to read secret] whose detail carries the
    quoted path and the text of that error, and leaves [Result] as it
    was.  If it returns a value, [Open] sets [Result] to the model with
    the configured path and that value, and adds no diagnostic.  The
    schema marks the [value] attribute computed and sensitive. *)
Theorem Open_reports_or_populates r req resp w :
  let cfg := ephemeral.OpenRequest_Config req in
  let path := ValueString (Path (config_data cfg)) in
  let diags := diag.Append (ephemeral.OpenResponse_Diagnostics resp) (config_diags cfg) in
  let w0 := mkWorld (heap w)
              (events w ++ [EvLog LDebug "Reading secret from gopass"
                              [("path", FString path)]]) in
  diag.HasError diags = false →
  (∀ v err w1,
      GetSecret strconv_Quote api_New (client r) path w0 = Done (v, Some err) w1 →
      ∃ resp',
        SecretEphemeralResource_Open strconv_Quote api_New r req resp w = Done resp' w1
        ∧ ephemeral.Result resp' = ephemeral.Result resp
        ∧ diag.HasError (ephemeral.OpenResponse_Diagnostics resp') = true
        ∧ ∃ d, d ∈ ephemeral.OpenResponse_Diagnostics resp'
               ∧ Severity_of d = SeverityError
               ∧ Summary d = "Failed to read secret"
               ∧ Detail d = "Could not read secret at path " +:+ strconv_Quote path
                            +:+ ": " +:+ Error err
               ∧ strings.Contains (Detail d) (strconv_Quote path) = true
               ∧ strings.Contains (Detail d) (Error err) = true)
  ∧ (∀ v w1,
      GetSecret strconv_Quote api_New (client r) path w0 = Done (v, None) w1 →
      ∃ resp' w2,
        SecretEphemeralResource_Open strconv_Quote api_New r req resp w = Done resp' w2
        ∧ ephemeral.Result resp'
          = Some (mkSecretModel (Path (config_data cfg)) (StringValue v))
        ∧ ephemeral.OpenResponse_Diagnostics resp' = diags)
  ∧ ∃ a, attribute "value" SecretEphemeralResource_Schema = Some a
         ∧ Computed a = true ∧ Sensitive a = true.
Proof.
  intros cfg path diags w0 Hok.
  split; [|split].
  - intros v err w1 HG.
    unfold SecretEphemeralResource_Open, Config_Get. fold cfg. simpl. fold diags path.
    rewrite Hok. unfold tflog_Debug, emit. unfold bind at 1. fold w0.
    rewrite (bind_Done _ _ _ _ _ HG). unfold ret.
    eexists. split; [reflexivity|]. simpl. split; [reflexivity|]. split.
    + eapply HasError_elem; [apply AddError_elem | reflexivity].
    + eexists. split; [apply AddError_elem|]. simpl.
      split; [reflexivity|]. split; [reflexivity|]. split; [reflexivity|]. split.
      * apply strings_facts.Contains_spec.
        exists "Could not read secret at path ", (": " +:+ Error err). reflexivity.
      * apply strings_facts.Contains_spec.
        exists ("Could not read secret at path " +:+ strconv_Quote path +:+ ": "), "".
        now rewrite strings_facts.append_nil_r, !strings_facts.append_assoc.
  - intros v w1 HG.
    unfold SecretEphemeralResource_Open, Config_Get. fold cfg. simpl. fold diags path.
    rewrite Hok. unfold tflog_Debug, emit. unfold bind at 1. fold w0.
    rewrite (bind_Done _ _ _ _ _ HG). unfold ret, bind; simpl.
    eexists _, _. split; [reflexivity|]. simpl. now split.
  - eexists. split; [reflexivity|]. now split.
Qed.

(** C10. [Configure] with nil provider data returns the resource and
    the response unchanged: no diagnostic, and an unset client stays
    unset.  [Open] on a resource without a client, once the configuration
    is read without error, calls [GetSecret] through the nil pointer,
    which panics at the mutex lock of [ensureStore]: [Open] panics and
    returns no response, so no diagnostic. *)
Theorem Open_without_client_panics r cresp req resp w :
  let configured :=
    SecretEphemeralResource_Configure r (ephemeral.mkConfigureRequest AnyNil) cresp in
  let cfg := ephemeral.OpenRequest_Config req in
  configured = (r, cresp)
  ∧ mu_Lock None w = Panic
  ∧ ensureStore api_New None w = Panic
  ∧ (∀ path w', GetSecret strconv_Quote api_New None path w' = Panic)
  ∧ (client r = None →
     diag.HasError
       (diag.Append (ephemeral.OpenResponse_Diagnostics resp) (config_diags cfg)) = false →
     SecretEphemeralResource_Open strconv_Quote api_New (fst configured) req resp w
     = Panic).
Proof.
  intros configured cfg. split; [reflexivity|]. split; [reflexivity|].
  split; [reflexivity|]. split; [reflexivity|].
  intros Hnil Hok. unfold configured; simpl.
  unfold SecretEphemeralResource_Open, Config_Get. fold cfg. simpl.
  rewrite Hok, Hnil. reflexivity.
Qed.

End Resource.

(** The provider's [Configure] allocates one client and stores its address
    in [DataSourceData] and [ResourceData]; it leaves
    [EphemeralResourceData] as it found it. *)
Lemma GopassProvider_Configure_run req resp w :
  let diags := diag.Append (provider.Diagnostics resp)
                 (provider.ConfigureRequest_ConfigDiags req) in
  GopassProvider_Configure req resp w
  = if diag.HasError diags
    then Done (provider.mkConfigureResponse diags (provider.DataSourceData resp)
                 (provider.ResourceData resp) (provider.EphemeralResourceData resp)) w
    else Done (provider.mkConfigureResponse diags
                 (AnyGopassClient (Some (length (heap w))))
                 (AnyGopassClient (Some (length (heap w))))
                 (provider.EphemeralResourceData resp))
           (mkWorld (heap w ++ [mkClient None false]) (events w)).
Proof.
  intros diags. unfold GopassProvider_Configure; simpl. fold diags.
  now destruct (diag.HasError diags).
Qed.

(** C1, evaluated.  A provider [Configure] with an error-free configuration
    on a fresh response builds one client and hands it to [DataSourceData]
    and [ResourceData] only: [EphemeralResourceData] stays nil, so the
    request the framework builds for an ephemeral resource carries nil
    provider data, and the resource's [Configure] leaves its client unset
    without a diagnostic. *)
Lemma GopassProvider_Configure_skips_ephemeral_data :
  ∃ presp w,
    GopassProvider_Configure (provider.mkConfigureRequest [])
      provider.new_ConfigureResponse empty_world = Done presp w
    ∧ heap w = [mkClient None false]
    ∧ provider.DataSourceData presp = AnyGopassClient (Some 0)
    ∧ provider.ResourceData presp = AnyGopassClient (Some 0)
    ∧ provider.EphemeralResourceData presp = AnyNil
    ∧ ephemeral.ProviderData (provider.ephemeral_ConfigureRequest presp) = AnyNil
    ∧ SecretEphemeralResource_Configure NewSecretEphemeralResource
        (provider.ephemeral_ConfigureRequest presp) (ephemeral.mkConfigureResponse [])
      = (mkSecretEphemeralResource None, ephemeral.mkConfigureResponse []).
Proof.
  eexists _, _. rewrite GopassProvider_Configure_run. simpl.
  split; [reflexivity|]. now repeat split.
Qed.

(** * The statements at the sample store *)

Lemma fresh_world_connects : connects_to sample_api_New fresh_world 0 sample_store.
Proof.
  exists (mkClient None false). split; [reflexivity|]. split; [reflexivity|].
  right. split; reflexivity.
Defined.

Lemma ListSecrets_immediate_children_witness :
  ∃ w', ListSecrets sample_api_New (Some 0) "infra/db/" fresh_world
        = Done (["infra/db/user"; "infra/db/password"; "infra/db/broken"], None) w'.
Proof.
  destruct (ListSecrets_immediate_children sample_api_New fresh_world 0 sample_store
              sample_paths "infra/db/" fresh_world_connects eq_refl)
    as (results & w' & HL & Hres & _).
  exists w'.
  assert (results = ["infra/db/user"; "infra/db/password"; "infra/db/broken"]) as <-
    by (rewrite Hres; vm_compute; reflexivity).
  exact HL.
Defined.

Lemma trailing_separator_invariance_witness :
  ListSecrets sample_api_New (Some 0) "a/b/" fresh_world
  = ListSecrets sample_api_New (Some 0) "a/b" fresh_world
  ∧ GetEnvSecrets sample_Quote sample_api_New (Some 0) "a/b/" fresh_world
    = GetEnvSecrets sample_Quote sample_api_New (Some 0) "a/b" fresh_world.
Proof.
  apply (trailing_separator_invariance sample_Quote sample_api_New (Some 0) fresh_world "a/b").
  reflexivity.
Defined.


Lemma GetEnvSecrets_fails_only_when_listing_fails_witness :
  (∃ m w2,
      GetEnvSecrets sample_Quote sample_api_New (Some 0) "infra/db" fresh_world
      = Done (m, None) w2
      ∧ m !! "user" = Some "alice"
      ∧ m !! "password" = Some "secret1"
      ∧ skip_warning "infra/db/broken"
          (Errorf_w ("failed to get secret " +:+ sample_Quote "infra/db/broken")
             not_in_store) ∈ events w2
      ∧ m !! "broken" = None)
  ∧ ∃ w1,
      GetEnvSecrets sample_Quote failing_api_New (Some 0) "infra/db" fresh_world
      = Done (∅, Some (Errorf_w "failed to initialize gopass store" no_keys)) w1.
Proof.
  split.
  - destruct (GetEnvSecrets_fails_only_when_listing_fails sample_Quote sample_api_New
                (Some 0) "infra/db" fresh_world) as (_ & Hok & _).
    edestruct Hok as (m & w2 & HG & Hm & Hskip); [vm_compute; reflexivity|].
    exists m, w2. split; [exact HG|]. split; [|split].
    + apply Hm. exists "infra/db/user". split; [repeat constructor|].
      split; vm_compute; reflexivity.
    + apply Hm. exists "infra/db/password". split; [repeat constructor|].
      split; vm_compute; reflexivity.
    + apply (Hskip "infra/db/broken" ""); [repeat constructor | vm_compute; reflexivity].
  - destruct (GetEnvSecrets_fails_only_when_listing_fails sample_Quote failing_api_New
                (Some 0) "infra/db" fresh_world) as (Herr & _).
    eexists. eapply Herr. vm_compute. reflexivity.
Defined.

Lemma GetSecret_latest_or_error_witness :
  (∃ w', GetSecret sample_Quote sample_api_New (Some 0) "infra/db/user" fresh_world
         = Done ("alice", None) w')
  ∧ ∃ err w',
      GetSecret sample_Quote sample_api_New (Some 0) "infra/db/missing" fresh_world
      = Done ("", Some err) w'
      ∧ Unwrap err = Some not_in_store
      ∧ strings.Contains (Error err) (sample_Quote "infra/db/missing") = true.
Proof.
  split.
  - destruct (GetSecret_latest_or_error sample_Quote sample_api_New fresh_world 0
                sample_store "infra/db/user" fresh_world_connects)
      as (w' & ev' & _ & _ & H).
    exists w'. exact H.
  - destruct (GetSecret_latest_or_error sample_Quote sample_api_New fresh_world 0
                sample_store "infra/db/missing" fresh_world_connects)
      as (w' & ev' & _ & _ & err & HG & _ & Hu & Hc & _).
    exists err, w'. split; [exact HG|]. split; [exact Hu | exact Hc].
Defined.

Lemma Close_releases_and_is_idempotent_witness :
  ∃ w',
    Close (Some 0) stubborn_world = Done tt w'
    ∧ heap w' !! 0 = Some (mkClient None false)
    ∧ events w'
      = [EvStoreClose;
         EvLog LWarn "Error closing gopass store" [("error", FString "lock file busy")]]
    ∧ Close (Some 0) w' = Done tt w'.
Proof.
  destruct (Close_releases_and_is_idempotent stubborn_world 0
              (mkClient (Some stubborn_store) false) eq_refl eq_refl)
    as (w' & ev' & HC & _ & Hcell & Hev & Hev' & _ & Hagain).
  exists w'. split; [exact HC|]. split; [exact Hcell|]. split; [|exact Hagain].
  rewrite Hev, Hev'. reflexivity.
Defined.

Lemma ensureStore_lazy_connect_witness :
  let final := run sample_api_New (Some 0) alternating
                 (replicate 2 AtLock, fresh_world) in
  open_calls (events (snd final)) = 1
  ∧ Forall (λ pc, pc = Returned None) (fst final)
  ∧ heap (snd final) !! 0 = Some (mkClient (Some sample_store) false).
Proof.
  destruct (ensureStore_lazy_connect sample_api_New 0 [mkClient None false] [] 2
              alternating eq_refl) as (_ & _ & H & _).
  apply (H sample_store); [reflexivity | lia | vm_compute; repeat constructor].
Defined.

(** With a store that cannot be opened, two concurrent callers make two
    [api.New] calls, not one. *)
Lemma failed_open_is_repeated :
  let final := run failing_api_New (Some 0) alternating
                 (replicate 2 AtLock, fresh_world) in
  Forall (λ pc, is_Returned pc = true) (fst final)
  ∧ open_calls (events (snd final)) = 2
  ∧ open_calls (events (snd final)) ≠ 1.
Proof.
  vm_compute. split; [repeat constructor|]. split; [reflexivity | discriminate].
Qed.

Lemma Open_reports_or_populates_witness :
  (∃ resp' w',
      SecretEphemeralResource_Open sample_Quote sample_api_New configured_resource
        (open_request "infra/db/user") new_OpenResponse fresh_world = Done resp' w'
      ∧ ephemeral.Result resp'
        = Some (mkSecretModel (StringValue "infra/db/user") (StringValue "alice"))
      ∧ ephemeral.OpenResponse_Diagnostics resp' = [])
  ∧ ∃ resp' w',
      SecretEphemeralResource_Open sample_Quote sample_api_New configured_resource
        (open_request "infra/db/broken") new_OpenResponse fresh_world = Done resp' w'
      ∧ ephemeral.Result resp' = None
      ∧ diag.HasError (ephemeral.OpenResponse_Diagnostics resp') = true.
Proof.
  split.
  - destruct (Open_reports_or_populates sample_Quote sample_api_New configured_resource
                (open_request "infra/db/user") new_OpenResponse fresh_world eq_refl)
      as (_ & Hok & _).
    edestruct Hok as (resp' & w2 & HO & HR & HD); [vm_compute; reflexivity|].
    exists resp', w2. split; [exact HO|]. split; [exact HR | exact HD].
  - destruct (Open_reports_or_populates sample_Quote sample_api_New configured_resource
                (open_request "infra/db/broken") new_OpenResponse fresh_world eq_refl)
      as (Herr & _).
    edestruct Herr as (resp' & HO & HR & HE & _); [vm_compute; reflexivity|].
    exists resp'. eexists. split; [exact HO|]. split; [exact HR | exact HE].
Defined.

Lemma Open_without_client_panics_witness :
  SecretEphemeralResource_Open sample_Quote sample_api_New NewSecretEphemeralResource
    (open_request "infra/db/user") new_OpenResponse fresh_world = Panic.
Proof.
  destruct (Open_without_client_panics sample_Quote sample_api_New
              NewSecretEphemeralResource (ephemeral.mkConfigureResponse [])
              (open_request "infra/db/user") new_OpenResponse fresh_world)
    as (_ & _ & _ & _ & H).
  apply H; reflexivity.
Defined.

(** * Further properties of the client wrapper *)

Section FurtherClient.

Variable strconv_Quote : string → string.
Variable api_New : nat → Store + error.

Lemma GetSecretFull_connected l st h ev path :
  h !! l = Some (mkClient (Some st) false) →
  GetSecretFull strconv_Quote api_New (Some l) path (mkWorld h ev)
  = match store_Get st path "latest" with
    | inl secret =>
        Done (Password secret, GetSecretFull_loop secret (Keys secret) ∅, None)
          (mkWorld h (ev ++ [EvStoreGet path "latest"]))
    | inr err =>
        Done ("", ∅, Some (Errorf_w ("failed to get secret " +:+ strconv_Quote path) err))
          (mkWorld h (ev ++ [EvStoreGet path "latest"]))
    end.
Proof.
  intros H. unfold GetSecretFull.
  rewrite (bind_Done _ _ _ _ _ (ensureStore_connected _ _ _ _ ev H)).
  unfold call_Get. unfold_go. lookups H.
  now destruct (store_Get st path "latest").
Qed.

(** The fields [GetSecretFull] collects, key by key. *)
Lemma GetSecretFull_loop_lookup secret keys :
  ∀ acc k v,
    GetSecretFull_loop secret keys acc !! k = Some v
    ↔ (k ∈ keys ∧ secret_Get secret k = Some v)
      ∨ (acc !! k = Some v ∧ (k ∉ keys ∨ secret_Get secret k = None)).
Proof.
  induction keys as [|key rest IH]; intros acc k v; simpl.
  - split.
    + intros H. right. split; [exact H|]. left. intros Hin. inversion Hin.
    + intros [[Hin _] | [H _]]; [inversion Hin | exact H].
  - destruct (secret_Get secret key) as [value|] eqn:Hget; rewrite IH; split.
    + intros [[Hin Hk] | [Hacc Hno]].
      * left. split; [now apply elem_of_cons; right | exact Hk].
      * destruct (decide (key = k)) as [->|Hne].
        -- rewrite lookup_insert_eq in Hacc. injection Hacc as <-.
           left. split; [now apply elem_of_cons; left | exact Hget].
        -- rewrite lookup_insert_ne in Hacc by exact Hne. right. split; [exact Hacc|].
           destruct Hno as [Hno | Hno]; [|now right].
           left. intros Hin. apply elem_of_cons in Hin as [-> | Hin]; [now apply Hne | now apply Hno].
    + intros [[Hin Hk] | [Hacc Hno]].
      * apply elem_of_cons in Hin as [-> | Hin]; [|left; now split].
        destruct (decide (key ∈ rest)) as [Hmem | Hmem]; [left; now split|].
        right. rewrite Hget in Hk. injection Hk as <-.
        rewrite lookup_insert_eq. split; [reflexivity | now left].
      * right.
        assert (key ≠ k) as Hne.
        { intros ->. destruct Hno as [Hno | Hno]; [|congruence].
          apply Hno. now apply elem_of_cons; left. }
        rewrite lookup_insert_ne by exact Hne. split; [exact Hacc|].
        destruct Hno as [Hno | Hno]; [|now right].
        left. intros Hin. apply Hno. now apply elem_of_cons; right.
    + intros [[Hin Hk] | [Hacc Hno]].
      * left. split; [now apply elem_of_cons; right | exact Hk].
      * right. split; [exact Hacc|].
        destruct Hno as [Hno | Hno]; [|now right].
        destruct (decide (key = k)) as [->|Hne]; [now right|].
        left. intros Hin. apply elem_of_cons in Hin as [-> | Hin]; [now apply Hne | now apply Hno].
    + intros [[Hin Hk] | [Hacc Hno]].
      * apply elem_of_cons in Hin as [-> | Hin]; [congruence | left; now split].
      * right. split; [exact Hacc|].
        destruct Hno as [Hno | Hno]; [|now right].
        left. intros Hin. apply Hno. now apply elem_of_cons; right.
Qed.

(** X1. [GetSecretFull] and [GetSecret], called on the same client, path
    and world, end the same way: both panic, both block, or both return,
    and then with the same password, the same error and the same heap. *)
Theorem GetSecretFull_agrees_with_GetSecret c path w :
  match GetSecret strconv_Quote api_New c path w,
        GetSecretFull strconv_Quote api_New c path w with
  | Done (password, err) w1, Done (password', _, err') w2 =>
      password = password' ∧ err = err' ∧ heap w1 = heap w2
  | Panic, Panic => True
  | Blocked, Blocked => True
  | _, _ => False
  end.
Proof.
  destruct (ensureStore_cases api_New c w)
    as [H | [H | [(l & st & w1 & -> & H & Hc) | (e & w1 & H)]]].
  - unfold GetSecret, GetSecretFull. now rewrite !(bind_Panic _ _ _ H).
  - unfold GetSecret, GetSecretFull. now rewrite !(bind_Blocked _ _ _ H).
  - unfold GetSecret, GetSecretFull. rewrite !(after_ensureStore _ _ _ _ _ _ H Hc).
    fold (GetSecret strconv_Quote api_New (Some l) path w1).
    fold (GetSecretFull strconv_Quote api_New (Some l) path w1).
    destruct w1 as [h1 ev1].
    rewrite (GetSecret_connected _ _ _ _ _ _ _ Hc), (GetSecretFull_connected _ _ _ _ _ Hc).
    now destruct (store_Get st path "latest").
  - unfold GetSecret, GetSecretFull. rewrite !(bind_Done _ _ _ _ _ H). now simpl.
Qed.

(** X2. On a client that connects to a store holding a secret at the path,
    [GetSecretFull] returns the password and a map that binds a key to a
    value exactly when the key is among the secret's keys and the secret
    has that value for it; a key without a value is left out. *)
Theorem GetSecretFull_fields w l st path secret :
  connects_to api_New w l st →
  store_Get st path "latest" = inl secret →
  ∃ fields w',
    GetSecretFull strconv_Quote api_New (Some l) path w
    = Done (Password secret, fields, None) w'
    ∧ ∀ k v, fields !! k = Some v ↔ k ∈ Keys secret ∧ secret_Get secret k = Some v.
Proof.
  intros Hc Hget.
  destruct (ensureStore_connects _ _ _ _ Hc) as (w1 & Hens & Hcon & _).
  unfold GetSecretFull. rewrite (after_ensureStore _ _ _ _ _ _ Hens Hcon).
  fold (GetSecretFull strconv_Quote api_New (Some l) path w1).
  destruct w1 as [h1 ev1]. rewrite (GetSecretFull_connected _ _ _ _ _ Hcon), Hget.
  eexists _, _. split; [reflexivity|].
  intros k v. rewrite GetSecretFull_loop_lookup. split.
  - intros [H | [H _]]; [exact H | now rewrite lookup_empty in H].
  - intros H. now left.
Qed.

(** X3. When the store cannot be opened, every reading method on an
    unconnected client returns zero values and the same error, which wraps
    the cause of [api.New]; no [Get] or [List] reaches the store, and the
    handle stays nil. *)
Theorem connection_failure_propagates l h ev cause path prefix :
  h !! l = Some (mkClient None false) →
  api_New (open_calls ev) = inr cause →
  let err := Errorf_w "failed to initialize gopass store" cause in
  let w1 := mkWorld h (ev ++ [EvLog LDebug "Initializing gopass store" []; EvApiNew]) in
  GetSecret strconv_Quote api_New (Some l) path (mkWorld h ev) = Done ("", Some err) w1
  ∧ GetSecretFull strconv_Quote api_New (Some l) path (mkWorld h ev)
    = Done ("", ∅, Some err) w1
  ∧ ListSecrets api_New (Some l) prefix (mkWorld h ev) = Done ([], Some err) w1
  ∧ GetEnvSecrets strconv_Quote api_New (Some l) prefix (mkWorld h ev)
    = Done (∅, Some err) w1
  ∧ Unwrap err = Some cause
  ∧ Error err = "failed to initialize gopass store: " +:+ Error cause.
Proof.
  intros H Hnew err w1.
  pose proof (ensureStore_fails api_New _ _ _ _ H Hnew) as Hens.
  assert (ListSecrets api_New (Some l) prefix (mkWorld h ev) = Done ([], Some err) w1) as HL
    by (unfold ListSecrets; now rewrite (bind_Done _ _ _ _ _ Hens)).
  split; [unfold GetSecret; now rewrite (bind_Done _ _ _ _ _ Hens)|].
  split; [unfold GetSecretFull; now rewrite (bind_Done _ _ _ _ _ Hens)|].
  split; [exact HL|].
  split; [unfold GetEnvSecrets; now rewrite (bind_Done _ _ _ _ _ HL)|].
  now split.
Qed.

(** X4. When the store's [List] fails on a client that connects,
    [ListSecrets] returns no paths and an error that wraps the cause, and
    [GetEnvSecrets] returns that same error with an empty map, in the same
    world: no secret is read. *)
Theorem list_failure_propagates w l st cause prefix :
  connects_to api_New w l st →
  store_List st = inr cause →
  let err := Errorf_w "failed to list secrets" cause in
  ∃ w1 ev',
    ListSecrets api_New (Some l) prefix w = Done ([], Some err) w1
    ∧ GetEnvSecrets strconv_Quote api_New (Some l) prefix w = Done (∅, Some err) w1
    ∧ events w1 = events w ++ ev'
    ∧ (∀ p r, EvStoreGet p r ∉ ev')
    ∧ Unwrap err = Some cause.
Proof.
  intros Hc Hlist err.
  assert (∃ w1 ev', ListSecrets api_New (Some l) prefix w = Done ([], Some err) w1
                    ∧ events w1 = events w ++ ev'
                    ∧ ∀ p r, EvStoreGet p r ∉ ev') as (w1 & ev' & HL & Hev & Hno).
  { destruct w as [h ev]. destruct Hc as ([s b] & Hl & Hmu & Hst); simpl in *. subst b.
    destruct Hst as [-> | [-> Hnew]].
    - rewrite (ListSecrets_connected _ _ _ _ _ _ Hl), Hlist.
      eexists _, _. split; [reflexivity|]. split; [reflexivity|].
      intros p r Hin. repeat (apply elem_of_cons in Hin as [Hin|Hin]; [discriminate|]).
      inversion Hin.
    - pose proof (ensureStore_opens api_New _ _ _ _ Hl Hnew) as Hens.
      pose proof (lookup_after_insert _ _ _ (mkClient (Some st) false) Hl) as Hcon.
      unfold ListSecrets. rewrite (after_ensureStore _ _ _ _ _ _ Hens Hcon).
      fold (ListSecrets api_New (Some l) prefix).
      rewrite (ListSecrets_connected _ _ _ _ _ _ Hcon), Hlist.
      eexists _, (_ ++ _). split; [reflexivity|]. simpl.
      split; [now rewrite <- app_assoc|].
      intros p r Hin. apply elem_of_app in Hin as [Hin|Hin];
        repeat (apply elem_of_cons in Hin as [Hin|Hin]; [discriminate|]); inversion Hin. }
  exists w1, ev'. split; [exact HL|].
  split; [unfold GetEnvSecrets; now rewrite (bind_Done _ _ _ _ _ HL)|].
  now repeat split.
Qed.

End FurtherClient.

(** * What the methods leave in place *)

Lemma preserves_refl l h ev st :
  h !! l = Some (mkClient st false) → preserves l (mkWorld h ev) (mkWorld h ev).
Proof.
  intros H. split; [reflexivity|]. split; [reflexivity|]. split; [eauto|].
  exists []. simpl. now rewrite app_nil_r.
Qed.

Lemma preserves_events l h ev ev' st :
  h !! l = Some (mkClient st false) → preserves l (mkWorld h ev) (mkWorld h (ev ++ ev')).
Proof.
  intros H. split; [reflexivity|]. split; [reflexivity|]. split; [eauto|]. now exists ev'.
Qed.

Lemma preserves_update l h ev ev2 old new :
  h !! l = Some old → mu new = false → (∃ ev', ev2 = ev ++ ev') →
  preserves l (mkWorld h ev) (mkWorld (<[l := new]> h) ev2).
Proof.
  intros H Hmu Hev. split; [simpl; apply length_insert|].
  split; [intros l' Hne; simpl; now apply list_lookup_insert_ne|].
  split; [exists new; split; [eapply lookup_after_insert, H | exact Hmu]|].
  exact Hev.
Qed.

Lemma preserves_trans l w1 w2 w3 :
  preserves l w1 w2 → preserves l w2 w3 → preserves l w1 w3.
Proof.
  intros (Hlen1 & Hoth1 & _ & ev1 & Hev1) (Hlen2 & Hoth2 & Hcell & ev2 & Hev2).
  split; [congruence|]. split; [intros l' Hne; rewrite Hoth2, Hoth1; auto|].
  split; [exact Hcell|]. exists (ev1 ++ ev2). now rewrite Hev2, Hev1, app_assoc.
Qed.

Section Frame.

Variable strconv_Quote : string → string.
Variable api_New : nat → Store + error.

Lemma ensureStore_preserves l w r w' :
  ensureStore api_New (Some l) w = Done r w' → preserves l w w'.
Proof.
  destruct w as [h ev]. intros Hens.
  destruct (h !! l) as [[[st|] [|]]|] eqn:H.
  - now rewrite (ensureStore_held _ _ _ _ _ H) in Hens.
  - rewrite (ensureStore_connected _ _ _ _ _ H) in Hens. injection Hens as <- <-.
    eapply preserves_refl, H.
  - now rewrite (ensureStore_held _ _ _ _ _ H) in Hens.
  - destruct (api_New (open_calls ev)) as [s|err] eqn:Hnew.
    + rewrite (ensureStore_opens _ _ _ _ _ H Hnew) in Hens. injection Hens as <- <-.
      eapply preserves_update; [exact H | reflexivity | eauto].
    + rewrite (ensureStore_fails _ _ _ _ _ H Hnew) in Hens. injection Hens as <- <-.
      eapply preserves_events, H.
  - now rewrite (ensureStore_dangling _ _ _ _ H) in Hens.
Qed.

(** A method that starts with [ensureStore] and, on a connected client,
    only extends the trace. *)
Lemma method_preserves {A} (k : option error → M A) l :
  (∀ st h1 ev1, h1 !! l = Some (mkClient (Some st) false) →
     ∃ r ev', bind (ensureStore api_New (Some l)) k (mkWorld h1 ev1)
              = Done r (mkWorld h1 (ev1 ++ ev'))) →
  (∀ err w, ∃ r, k (Some err) w = Done r w) →
  ∀ w r w', bind (ensureStore api_New (Some l)) k w = Done r w' → preserves l w w'.
Proof.
  intros Hcon Herr w r w' Hrun.
  destruct (ensureStore_cases api_New (Some l) w)
    as [H | [H | [(l' & st & w1 & [= <-] & H & Hc) | (e & w1 & H)]]].
  - now rewrite (bind_Panic _ _ _ H) in Hrun.
  - now rewrite (bind_Blocked _ _ _ H) in Hrun.
  - rewrite (after_ensureStore _ _ _ _ _ _ H Hc) in Hrun.
    destruct w1 as [h1 ev1]. destruct (Hcon st h1 ev1 Hc) as (r' & ev' & Hk).
    rewrite Hk in Hrun. injection Hrun as <- <-.
    eapply preserves_trans; [eapply ensureStore_preserves, H|].
    eapply preserves_events, Hc.
  - rewrite (bind_Done _ _ _ _ _ H) in Hrun. destruct (Herr e w1) as [r' Hk].
    rewrite Hk in Hrun. injection Hrun as <- <-. eapply ensureStore_preserves, H.
Qed.

Lemma Close_preserves l w w' :
  Close (Some l) w = Done tt w' → preserves l w w'.
Proof.
  destruct w as [h ev]. intros HC.
  destruct (h !! l) as [[st [|]]|] eqn:H.
  - unfold Close in HC. revert HC. unfold_go. lookups H. discriminate.
  - revert HC. unfold Close. unfold_go. lookups H.
    destruct st as [s|]; simpl.
    + destruct (store_Close s) as [[err|]|]; simpl; lookups H; intros [= <-];
        (eapply preserves_update; [exact H | reflexivity |]);
        [ exists [EvStoreClose;
                  EvLog LWarn "Error closing gopass store" [("error", FString (Error err))]];
          now rewrite app_assoc3
        | now exists [EvStoreClose]
        | exists []; now rewrite app_nil_r ].
    + lookups H. intros [= <-].
      eapply preserves_update; [exact H | reflexivity |].
      exists []. now rewrite app_nil_r.
  - unfold Close in HC. revert HC. unfold_go. rewrite H. discriminate.
Qed.

(** X5. Whenever [ensureStore], [Close], [GetSecret], [GetSecretFull],
    [ListSecrets] or [GetEnvSecrets] returns, it has released the mutex
    of its client, left every other client of the heap untouched, kept
    the heap's size, and only appended to the trace. *)
Theorem methods_preserve_other_clients l w :
  (∀ r w', ensureStore api_New (Some l) w = Done r w' → preserves l w w')
  ∧ (∀ w', Close (Some l) w = Done tt w' → preserves l w w')
  ∧ (∀ path r w',
       GetSecret strconv_Quote api_New (Some l) path w = Done r w' → preserves l w w')
  ∧ (∀ path r w',
       GetSecretFull strconv_Quote api_New (Some l) path w = Done r w' → preserves l w w')
  ∧ (∀ prefix r w',
       ListSecrets api_New (Some l) prefix w = Done r w' → preserves l w w')
  ∧ (∀ prefix r w',
       GetEnvSecrets strconv_Quote api_New (Some l) prefix w = Done r w' →
       preserves l w w').
Proof.
  assert (∀ prefix w0 r w',
            ListSecrets api_New (Some l) prefix w0 = Done r w' → preserves l w0 w') as HL.
  { intros prefix w0 r w'. unfold ListSecrets. apply method_preserves.
    - intros st h1 ev1 Hc. fold (ListSecrets api_New (Some l) prefix).
      rewrite (ListSecrets_connected _ _ _ _ _ _ Hc).
      destruct (store_List st); eexists _, _; reflexivity.
    - intros err w1. eexists. reflexivity. }
  split; [intros r w'; apply ensureStore_preserves|].
  split; [intros w'; apply Close_preserves|].
  split; [|split; [|split; [exact (λ prefix, HL prefix w)|]]].
  - intros path r w'. unfold GetSecret. apply method_preserves.
    + intros st h1 ev1 Hc. fold (GetSecret strconv_Quote api_New (Some l) path).
      rewrite (GetSecret_connected _ _ _ _ _ _ _ Hc).
      destruct (store_Get st path "latest"); eexists _, _; reflexivity.
    + intros err w1. eexists. reflexivity.
  - intros path r w'. unfold GetSecretFull. apply method_preserves.
    + intros st h1 ev1 Hc. fold (GetSecretFull strconv_Quote api_New (Some l) path).
      rewrite (GetSecretFull_connected _ _ _ _ _ _ _ Hc).
      destruct (store_Get st path "latest"); eexists _, _; reflexivity.
    + intros err w1. eexists. reflexivity.
  - intros prefix r w' HG. unfold GetEnvSecrets in HG.
    destruct (ListSecrets api_New (Some l) prefix w) as [[children [err|]] w1| |] eqn:HLw.
    + rewrite (bind_Done _ _ _ _ _ HLw) in HG. injection HG as <- <-. eapply HL, HLw.
    + rewrite (bind_Done _ _ _ _ _ HLw) in HG.
      destruct (ListSecrets_ok_inv _ _ _ _ _ _ HLw) as (l' & st & all & [= <-] & Hcon & _).
      destruct w1 as [h1 ev1].
      destruct (GetEnvSecrets_loop_connected strconv_Quote api_New l st h1
                  (strings.TrimSuffix prefix "/") children Hcon ∅ ev1) as (ev' & Hloop & _).
      rewrite (bind_Done _ _ _ _ _ Hloop) in HG. injection HG as <- <-.
      eapply preserves_trans; [eapply HL, HLw | eapply preserves_events, Hcon].
    + now rewrite (bind_Panic _ _ _ HLw) in HG.
    + now rewrite (bind_Blocked _ _ _ HLw) in HG.
Qed.

End Frame.

(** * Listing, aggregation and reconnection *)

Lemma backend_calls_app (a b : list Event) :
  backend_calls (a ++ b) = backend_calls a ++ backend_calls b.
Proof. unfold backend_calls. apply filter_app. Qed.

Section FurtherListing.

Variable strconv_Quote : string → string.
Variable api_New : nat → Store + error.

(** [Close] on a connected, unlocked client. *)
Lemma Close_connected l st h ev :
  h !! l = Some (mkClient (Some st) false) →
  ∃ ev', Close (Some l) (mkWorld h ev)
         = Done tt (mkWorld (<[l := mkClient None false]> h) (ev ++ ev'))
         ∧ open_calls ev' = 0.
Proof.
  intros H. unfold Close. unfold_go. lookups H.
  destruct (store_Close st) as [[err|]|]; simpl; lookups H.
  - eexists [_; _]. now rewrite app_assoc3.
  - now exists [EvStoreClose].
  - exists []. now rewrite app_nil_r.
Qed.

(** X6. [Close] does not retire the client: after [Close] on a connected
    client, the next [ensureStore] calls [api.New] again, once, and
    connects the client to the store that call returns. *)
Theorem Close_then_reconnect w l st st2 :
  connected w l st →
  api_New (open_calls (events w)) = inl st2 →
  ∃ w1 w2,
    Close (Some l) w = Done tt w1
    ∧ heap w1 !! l = Some (mkClient None false)
    ∧ ensureStore api_New (Some l) w1 = Done None w2
    ∧ connected w2 l st2
    ∧ open_calls (events w2) = S (open_calls (events w)).
Proof.
  destruct w as [h ev]. unfold connected; simpl. intros Hc Hnew.
  destruct (Close_connected _ _ _ ev Hc) as (ev' & HC & Hzero).
  pose proof (lookup_after_insert _ _ _ (mkClient None false) Hc) as H1.
  assert (api_New (open_calls (ev ++ ev')) = inl st2) as Hnew'
    by (now rewrite open_calls_app, Hzero, Nat.add_0_r).
  eexists _, _. split; [exact HC|]. split; [exact H1|].
  split; [apply ensureStore_opens; [exact H1 | exact Hnew']|]. simpl. split.
  - eapply lookup_after_insert, H1.
  - rewrite !open_calls_app, Hzero. unfold open_calls; simpl. lia.
Qed.

Lemma filter_none {A} (P : A → Prop) `{∀ x, Decision (P x)} (xs : list A) :
  (∀ x, x ∈ xs → ¬ P x) → filter P xs = [].
Proof.
  induction xs as [|x xs IH]; intros Hno; [reflexivity|].
  rewrite filter_cons, decide_False by (apply Hno; now apply elem_of_cons; left).
  apply IH. intros y Hy. apply Hno. now apply elem_of_cons; right.
Qed.

(** X7. With the empty prefix (or the lone separator), [ListSecrets]
    looks for paths that begin with a separator: on a store none of whose
    paths does, it returns the empty listing, top-level secrets included. *)
Theorem ListSecrets_of_the_root w l st allSecrets prefix :
  connects_to api_New w l st →
  store_List st = inl allSecrets →
  prefix = "" ∨ prefix = "/" →
  (∀ path, path ∈ allSecrets → strings.HasPrefix path "/" = false) →
  ∃ w', ListSecrets api_New (Some l) prefix w = Done ([], None) w'.
Proof using api_New.
  intros Hc Hlist Hp Hnone.
  destruct (ListSecrets_connects _ _ _ _ _ prefix Hc Hlist) as [w' HL].
  exists w'. rewrite HL. do 2 f_equal.
  assert (strings.TrimSuffix prefix "/" = "") as -> by (destruct Hp as [-> | ->]; reflexivity).
  apply filter_none. intros path Hin Hch.
  apply andb_true_iff in Hch as [Hch _].
  change ("" +:+ "/") with "/" in Hch. rewrite (Hnone _ Hin) in Hch. discriminate.
Qed.

(** X8. Only one trailing separator is stripped: for a prefix that ends
    in two, [ListSecrets] looks for paths with a doubled separator, and on
    a store that has none it returns the empty listing. *)
Theorem ListSecrets_doubled_separator w l st allSecrets q :
  connects_to api_New w l st →
  store_List st = inl allSecrets →
  (∀ path, path ∈ allSecrets → strings.Contains path "//" = false) →
  strings.TrimSuffix (q +:+ "//") "/" = q +:+ "/"
  ∧ ∃ w', ListSecrets api_New (Some l) (q +:+ "//") w = Done ([], None) w'.
Proof using api_New.
  intros Hc Hlist Hnone.
  assert (strings.TrimSuffix (q +:+ "//") "/" = q +:+ "/") as Htrim.
  { change "//" with ("/" +:+ "/"). rewrite <- strings_facts.append_assoc.
    apply strings_facts.TrimSuffix_append. }
  split; [exact Htrim|].
  destruct (ListSecrets_connects _ _ _ _ _ (q +:+ "//") Hc Hlist) as [w' HL].
  exists w'. rewrite HL, Htrim. do 2 f_equal.
  apply filter_none. intros path Hin Hch.
  apply is_child_spec in Hch as (x & -> & _).
  assert (strings.Contains ((q +:+ "/") +:+ "/" +:+ x) "//" = true) as Hc2.
  { apply strings_facts.Contains_spec. exists q, x.
    change "//" with ("/" +:+ "/"). now rewrite !strings_facts.append_assoc. }
  rewrite (Hnone _ Hin) in Hc2. discriminate.
Qed.

Lemma collect_size st prefix secretPaths :
  ∀ acc, size (collect st prefix secretPaths acc) ≤ size acc + length secretPaths.
Proof.
  induction secretPaths as [|path rest IH]; intros acc; [simpl; lia|].
  rewrite collect_cons. etransitivity; [apply IH|]. cbn [length].
  destruct (store_Get st path "latest") as [secret|]; [|lia].
  rewrite map_size_insert. destruct (acc !! _); unfold id; lia.
Qed.

(** X9. The map [GetEnvSecrets] returns has no key that contains a
    separator, and no more entries than the store lists paths. *)
Theorem GetEnvSecrets_keys_are_single_segments w l st allSecrets prefix :
  connects_to api_New w l st →
  store_List st = inl allSecrets →
  ∃ m w2,
    GetEnvSecrets strconv_Quote api_New (Some l) prefix w = Done (m, None) w2
    ∧ (∀ k, is_Some (m !! k) → strings.Contains k "/" = false)
    ∧ size m ≤ length allSecrets.
Proof.
  intros Hc Hlist. set (np := strings.TrimSuffix prefix "/").
  destruct (ListSecrets_connects _ _ _ _ _ prefix Hc Hlist) as [w1 HL]. fold np in HL.
  set (children := filter (λ path, is_child np path = true) allSecrets) in *.
  destruct (ListSecrets_ok_inv _ _ _ _ _ _ HL) as (l' & st' & all' & [= <-] & Hcon & _).
  pose proof (children_are_children np allSecrets) as Hch. fold children in Hch.
  destruct w1 as [h1 ev1].
  destruct (GetEnvSecrets_loop_connected strconv_Quote api_New l st' h1 np children
              Hcon ∅ ev1) as (ev' & Hloop & _).
  exists (collect st' np children ∅), (mkWorld h1 (ev1 ++ ev')). split; [|split].
  - unfold GetEnvSecrets. rewrite (bind_Done _ _ _ _ _ HL). fold np.
    now rewrite (bind_Done _ _ _ _ _ Hloop).
  - intros k [v Hk]. apply (collect_lookup _ _ _ Hch) in Hk
      as [(path & secret & Hin & <- & _) | [Hempty _]];
      [|now rewrite lookup_empty in Hempty].
    eapply Forall_forall in Hch; [|exact Hin].
    apply andb_true_iff in Hch as [_ Hno]. now apply negb_true_iff in Hno.
  - etransitivity; [apply collect_size|]. rewrite map_size_empty. simpl.
    unfold children. apply length_filter.
Qed.

(** The store calls of the loop of [GetEnvSecrets] over a connected store. *)
Lemma GetEnvSecrets_loop_calls l st h prefix secretPaths :
  h !! l = Some (mkClient (Some st) false) →
  ∀ acc ev, ∃ ev',
    GetEnvSecrets_loop strconv_Quote api_New (Some l) prefix secretPaths acc (mkWorld h ev)
    = Done (collect st prefix secretPaths acc) (mkWorld h (ev ++ ev'))
    ∧ backend_calls ev' = map (λ path, EvStoreGet path "latest") secretPaths.
Proof.
  intros H. induction secretPaths as [|path rest IH]; intros acc ev; simpl.
  - exists []. now rewrite app_nil_r.
  - unfold bind at 1. rewrite (GetSecret_connected _ _ _ _ _ _ _ H).
    destruct (store_Get st path "latest") as [secret|err] eqn:Hget.
    + set (read := [EvLog LDebug "Reading secret" [("path", FString path)];
                    EvStoreGet path "latest";
                    EvLog LDebug "Successfully read secret" [("path", FString path)]]).
      destruct (IH (<[strings.TrimPrefix path (prefix +:+ "/") := Password secret]> acc)
                  (ev ++ read)) as (ev' & -> & Hcalls).
      exists (read ++ ev'). split; [now rewrite <- app_assoc|].
      rewrite backend_calls_app, Hcalls. reflexivity.
    + set (read := [EvLog LDebug "Reading secret" [("path", FString path)];
                    EvStoreGet path "latest"]).
      set (e := Errorf_w ("failed to get secret " +:+ strconv_Quote path) err).
      unfold tflog_Warn, emit, bind; cbn [heap events]. fold e.
      fold (skip_warning path e).
      destruct (IH acc ((ev ++ read) ++ [skip_warning path e])) as (ev' & -> & Hcalls).
      exists ((read ++ [skip_warning path e]) ++ ev'). split.
      * now rewrite <- !app_assoc.
      * rewrite !backend_calls_app, Hcalls. reflexivity.
Qed.

(** X10. On a connected client with a store that lists, [GetEnvSecrets]
    reaches the store with one [List] and then one [Get] at revision
    [latest] for each listed child, in the order of the listing, and
    with nothing else: it opens no store and reads no child twice. *)
Theorem GetEnvSecrets_store_calls w l st allSecrets prefix :
  connected w l st →
  store_List st = inl allSecrets →
  ∃ children w1 m w2 ev',
    ListSecrets api_New (Some l) prefix w = Done (children, None) w1
    ∧ GetEnvSecrets strconv_Quote api_New (Some l) prefix w = Done (m, None) w2
    ∧ events w2 = events w ++ ev'
    ∧ backend_calls ev'
      = EvStoreList :: map (λ path, EvStoreGet path "latest") children.
Proof.
  destruct w as [h ev]. unfold connected; simpl. intros Hc Hlist.
  set (np := strings.TrimSuffix prefix "/").
  pose proof (ListSecrets_connected api_New _ _ _ ev prefix Hc) as HL.
  rewrite Hlist in HL. cbv zeta in HL. fold np in HL.
  set (children := ListSecrets_loop (np +:+ "/") allSecrets []) in *.
  match type of HL with _ = Done _ (mkWorld _ (_ ++ ?e)) => set (listed := e) in * end.
  destruct (GetEnvSecrets_loop_calls l st h np children Hc ∅ (ev ++ listed))
    as (ev' & Hloop & Hcalls).
  exists children, (mkWorld h (ev ++ listed)), (collect st np children ∅),
    (mkWorld h ((ev ++ listed) ++ ev')), (listed ++ ev').
  split; [exact HL|]. split; [|split].
  - unfold GetEnvSecrets. rewrite (bind_Done _ _ _ _ _ HL). fold np.
    now rewrite (bind_Done _ _ _ _ _ Hloop).
  - cbn [events]. now rewrite <- app_assoc.
  - rewrite backend_calls_app, Hcalls. reflexivity.
Qed.

End FurtherListing.

(** * Further properties of concurrent callers, the resource and the provider *)

Section FurtherConcurrency.

Variable api_New : nat → Store + error.

(** X11. Under every schedule of goroutines calling [ensureStore] on one
    client, at most one goroutine is between its [Lock] and its [Unlock],
    and the mutex is held exactly when one is. *)
Theorem ensureStore_mutual_exclusion l h ev n sched :
  h !! l = Some (mkClient None false) →
  let final := run api_New (Some l) sched (replicate n AtLock, mkWorld h ev) in
  (∀ i j pi pj,
      fst final !! i = Some pi → fst final !! j = Some pj →
      critical pi = true → critical pj = true → i = j)
  ∧ ∃ obj, heap (snd final) !! l = Some obj
           ∧ (mu obj = true ↔ ∃ i pc, fst final !! i = Some pc ∧ critical pc = true).
Proof.
  intros Hl final.
  pose proof (run_Inv api_New l (open_calls ev) sched _
                (Inv_initial api_New l _ h ev n Hl eq_refl))
    as ([st held] & Hcell & Hm & _).
  fold final in Hcell, Hm. simpl in Hm. split.
  - intros i j pi pj Hi Hj Hci Hcj.
    pose proof (critical_needs_mutex _ _ _ _ Hm Hi Hci) as ->.
    destruct Hm as (k & pk & Hk & Hck & Hidle).
    destruct (decide (i = k)) as [->|Hik];
      [|rewrite (Hidle _ _ Hik Hi) in Hci; discriminate].
    destruct (decide (j = k)) as [->|Hjk];
      [reflexivity | rewrite (Hidle _ _ Hjk Hj) in Hcj; discriminate].
  - exists (mkClient st held). split; [exact Hcell|]. simpl. split.
    + intros ->. destruct Hm as (k & pk & Hk & Hck & _). eauto.
    + intros (i & pc & Hi & Hc). eapply critical_needs_mutex; eauto.
Qed.

(** X12. Goroutines calling [ensureStore] never deadlock: under every
    schedule, either all of them have returned or one of them can take
    its next step. *)
Theorem ensureStore_no_deadlock l h ev n sched :
  h !! l = Some (mkClient None false) →
  let final := run api_New (Some l) sched (replicate n AtLock, mkWorld h ev) in
  Forall (λ pc, is_Returned pc = true) (fst final)
  ∨ ∃ i pc pc' w',
      fst final !! i = Some pc
      ∧ thread_step api_New (Some l) pc (snd final) = Done pc' w'.
Proof.
  intros Hl final.
  pose proof (run_Inv api_New l (open_calls ev) sched _
                (Inv_initial api_New l _ h ev n Hl eq_refl))
    as ([st held] & Hcell & Hm & _).
  fold final in Hcell, Hm. simpl in Hm.
  destruct (snd final) as [hf evf] eqn:Hw. simpl in Hcell.
  destruct held.
  - right. destruct Hm as (i & pc & Hi & Hc & _).
    pose proof (thread_step_cases api_New l pc st true hf evf Hcell) as Hstep.
    exists i, pc. destruct pc; try discriminate Hc; lazy beta iota in Hstep;
      try destruct st; do 2 eexists; (split; [exact Hi | exact Hstep]).
  - destruct (decide (Forall (λ pc, is_Returned pc = true) (fst final)))
      as [Hall | Hnot]; [now left | right].
    apply not_Forall_Exists in Hnot; [|intros pc; apply _].
    apply Exists_exists in Hnot as (pc & Hin & Hpc). simpl in Hpc.
    apply list_elem_of_lookup in Hin as [i Hi].
    pose proof (Hm _ _ Hi) as Hidle.
    pose proof (thread_step_cases api_New l pc st false hf evf Hcell) as Hstep.
    exists i, pc. destruct pc; try discriminate Hidle; lazy beta iota in Hstep.
    + do 2 eexists. split; [exact Hi | exact Hstep].
    + exfalso. now apply Hpc.
Qed.

End FurtherConcurrency.

Lemma AddError_keeps (diags : diag.Diagnostics) (summary detail : string) (d : Diagnostic) :
  d ∈ diags → d ∈ diag.AddError diags summary detail.
Proof.
  intros Hin. unfold diag.AddError; simpl.
  destruct (diag.Contains diags _); [exact Hin|]. apply elem_of_app. now left.
Qed.

Lemma HasError_AddError (diags : diag.Diagnostics) (summary detail : string) :
  diag.HasError (diag.AddError diags summary detail) = true.
Proof. eapply HasError_elem; [apply AddError_elem | reflexivity]. Qed.

(** X13. The resource's [Configure] takes its client from the provider
    data exactly when that is a [*GopassClient] (a nil one included, and
    without complaint); it keeps every diagnostic it was given, and the
    response is in error afterwards exactly when it was before or the
    data has another type, in which case the diagnostic names that type. *)
Theorem Configure_accepts_only_GopassClient r data resp :
  let out := SecretEphemeralResource_Configure r (ephemeral.mkConfigureRequest data) resp in
  let before := ephemeral.ConfigureResponse_Diagnostics resp in
  let after := ephemeral.ConfigureResponse_Diagnostics (snd out) in
  client (fst out) = match data with AnyGopassClient p => p | _ => client r end
  ∧ (∀ d, d ∈ before → d ∈ after)
  ∧ diag.HasError after = diag.HasError before || is_other_type data
  ∧ ∀ name, data = AnyOther name →
            diag.NewErrorDiagnostic "Unexpected Provider Data"
              ("Expected *GopassClient, got: " +:+ name) ∈ after.
Proof.
  destruct data as [|p|name]; simpl.
  - rewrite orb_false_r. repeat split; auto. discriminate.
  - rewrite orb_false_r. repeat split; auto. discriminate.
  - rewrite orb_true_r. split; [reflexivity|]. split; [|split].
    + intros d. apply AddError_keeps.
    + apply HasError_AddError.
    + intros ? [= <-]. apply AddError_elem.
Qed.

Section FurtherResource.

Variable strconv_Quote : string → string.
Variable api_New : nat → Store + error.

(** X14. When reading the configuration leaves the response in error,
    [Open] returns at once: the store is not touched, nothing is logged,
    [Result] stays as it was, and a resource without a client does not
    panic. *)
Theorem Open_stops_on_configuration_error r req resp w :
  let diags := diag.Append (ephemeral.OpenResponse_Diagnostics resp)
                 (config_diags (ephemeral.OpenRequest_Config req)) in
  diag.HasError diags = true →
  SecretEphemeralResource_Open strconv_Quote api_New r req resp w
  = Done (ephemeral.mkOpenResponse (ephemeral.Result resp) diags) w.
Proof.
  intros diags Herr. unfold SecretEphemeralResource_Open, Config_Get; simpl.
  fold diags. now rewrite Herr.
Qed.

(** X15. On a resource whose client is connected, an [Open] whose
    configuration is read without error leaves the heap as it was and
    appends exactly this trace: the debug lines [Reading secret from
    gopass] and [Reading secret], one [Get] for the configured path at
    revision [latest], and, when that [Get] succeeded, the debug lines
    [Successfully read secret] and [Successfully read secret from
    gopass]; every line has the path as its only field.  The trace is
    fixed by the path and by whether the [Get] succeeded: the secret is
    never logged. *)
Theorem Open_reads_once_and_logs_only_the_path r req resp w l st :
  client r = Some l →
  connected w l st →
  let cfg := ephemeral.OpenRequest_Config req in
  let path := ValueString (Path (config_data cfg)) in
  diag.HasError
    (diag.Append (ephemeral.OpenResponse_Diagnostics resp) (config_diags cfg)) = false →
  ∃ resp' ev',
    SecretEphemeralResource_Open strconv_Quote api_New r req resp w
    = Done resp' (mkWorld (heap w) (events w ++ ev'))
    ∧ ev' = [EvLog LDebug "Reading secret from gopass" [("path", FString path)];
             EvLog LDebug "Reading secret" [("path", FString path)];
             EvStoreGet path "latest"]
            ++ match store_Get st path "latest" with
               | inl _ =>
                   [EvLog LDebug "Successfully read secret" [("path", FString path)];
                    EvLog LDebug "Successfully read secret from gopass"
                      [("path", FString path)]]
               | inr _ => []
               end
    ∧ backend_calls ev' = [EvStoreGet path "latest"].
Proof.
  destruct w as [h ev]. unfold connected; simpl. intros Hr Hc Hok.
  unfold SecretEphemeralResource_Open, Config_Get; simpl. rewrite Hok, Hr.
  unfold tflog_Debug, emit. unfold bind at 1. cbn [heap events].
  unfold bind at 1. rewrite (GetSecret_connected _ _ _ _ _ _ _ Hc).
  destruct (store_Get st _ "latest") as [secret|cause]; simpl.
  - unfold bind, ret; simpl. eexists _, _.
    split; [rewrite <- !app_assoc; reflexivity|]. split; reflexivity.
  - unfold ret. eexists _, _.
    split; [rewrite <- !app_assoc; reflexivity|]. split; reflexivity.
Qed.

End FurtherResource.

(** X16. A provider [Configure] whose configuration is in error allocates
    nothing and leaves the provider data as it was.  Otherwise it
    allocates one client at an address that was free, unconnected and
    unlocked, hands that address to [DataSourceData] and [ResourceData],
    keeps every existing client, and makes no call to the store; a second
    [Configure] allocates another client at a different address. *)
Theorem GopassProvider_Configure_allocates_fresh_client req resp w :
  let diags := diag.Append (provider.Diagnostics resp)
                 (provider.ConfigureRequest_ConfigDiags req) in
  (diag.HasError diags = true →
   GopassProvider_Configure req resp w
   = Done (provider.mkConfigureResponse diags (provider.DataSourceData resp)
             (provider.ResourceData resp) (provider.EphemeralResourceData resp)) w)
  ∧ (diag.HasError diags = false →
     ∃ l presp w',
       GopassProvider_Configure req resp w = Done presp w'
       ∧ heap w !! l = None
       ∧ heap w' !! l = Some (mkClient None false)
       ∧ (∀ l' obj, heap w !! l' = Some obj → heap w' !! l' = Some obj)
       ∧ events w' = events w
       ∧ provider.DataSourceData presp = AnyGopassClient (Some l)
       ∧ provider.ResourceData presp = AnyGopassClient (Some l)
       ∧ ∀ req2 resp2,
           diag.HasError (diag.Append (provider.Diagnostics resp2)
                            (provider.ConfigureRequest_ConfigDiags req2)) = false →
           ∃ l2 presp2 w2,
             GopassProvider_Configure req2 resp2 w' = Done presp2 w2
             ∧ provider.ResourceData presp2 = AnyGopassClient (Some l2)
             ∧ l2 ≠ l
             ∧ heap w2 !! l = Some (mkClient None false)).
Proof.
  intros diags. rewrite GopassProvider_Configure_run. fold diags. split.
  - now intros ->.
  - intros ->. exists (length (heap w)). eexists _, _. split; [reflexivity|]. simpl.
    split; [now apply lookup_ge_None_2|].
    split; [now rewrite lookup_app_r, Nat.sub_diag|].
    split; [intros l' obj Hl'; now apply lookup_app_l_Some|].
    split; [reflexivity|]. split; [reflexivity|]. split; [reflexivity|].
    intros req2 resp2 Hok2. rewrite GopassProvider_Configure_run. simpl. rewrite Hok2.
    eexists _, _, _. split; [reflexivity|]. simpl. split; [reflexivity|].
    split; [rewrite length_app; simpl; lia|].
    apply lookup_app_l_Some. now rewrite lookup_app_r, Nat.sub_diag.
Qed.

(** * A bound on the store-open calls *)

Lemma pending_opens_cons pc pcs :
  pending_opens (pc :: pcs) = (if may_open pc then 1 else 0) + pending_opens pcs.
Proof.
  unfold pending_opens. rewrite filter_cons.
  destruct (may_open pc); [rewrite decide_True by reflexivity | rewrite decide_False by discriminate];
    reflexivity.
Qed.

Lemma pending_opens_moved (pcs : list Pc) (i : nat) pc pc' :
  pcs !! i = Some pc →
  pending_opens (<[i := pc']> pcs) + (if may_open pc then 1 else 0)
  = pending_opens pcs + (if may_open pc' then 1 else 0).
Proof.
  revert i. induction pcs as [|p pcs IH]; intros [|i] H; try discriminate.
  - injection H as ->. simpl. rewrite !pending_opens_cons. lia.
  - simpl in *. rewrite !pending_opens_cons. specialize (IH i H). lia.
Qed.

Lemma pending_opens_replicate n : pending_opens (replicate n AtLock) = n.
Proof. induction n as [|n IH]; [reflexivity|]. simpl. rewrite pending_opens_cons, IH. reflexivity. Qed.

Section OpenBound.

Variable api_New : nat → Store + error.

(** A step that calls [api.New] uses up the goroutine's one chance. *)
Lemma thread_step_budget c pc w pc' w' :
  thread_step api_New c pc w = Done pc' w' →
  open_calls (events w') + (if may_open pc' then 1 else 0)
  ≤ open_calls (events w) + (if may_open pc then 1 else 0).
Proof.
  destruct w as [h ev], c as [l|]; destruct pc; simpl; unfold_go;
    repeat case_match; intros; simplify_eq; simpl;
    rewrite ?open_calls_app; unfold open_calls; simpl; lia.
Qed.

Lemma sched_step_budget c cfg i :
  open_calls (events (snd (sched_step api_New c cfg i)))
  + pending_opens (fst (sched_step api_New c cfg i))
  ≤ open_calls (events (snd cfg)) + pending_opens (fst cfg).
Proof.
  unfold sched_step. destruct (fst cfg !! i) as [pc|] eqn:Hi; [|lia].
  destruct (thread_step api_New c pc (snd cfg)) as [pc' w'| |] eqn:Hstep; [|lia..].
  simpl. pose proof (thread_step_budget _ _ _ _ _ Hstep).
  pose proof (pending_opens_moved _ _ _ pc' Hi). lia.
Qed.

Lemma run_budget c sched cfg :
  open_calls (events (snd (run api_New c sched cfg)))
  + pending_opens (fst (run api_New c sched cfg))
  ≤ open_calls (events (snd cfg)) + pending_opens (fst cfg).
Proof.
  revert cfg. induction sched as [|i sched IH]; intros cfg; [simpl; lia|].
  simpl. etransitivity; [apply IH | apply sched_step_budget].
Qed.

(** X17. However [n] concurrent calls of [ensureStore] are scheduled, and
    whatever [api.New] answers, they make at most [n] calls to [api.New]:
    no call of [ensureStore] opens the store twice. *)
Theorem ensureStore_opens_at_most_once_each c w n sched :
  let final := run api_New c sched (replicate n AtLock, w) in
  open_calls (events (snd final)) ≤ open_calls (events w) + n.
Proof.
  intros final. pose proof (run_budget c sched (replicate n AtLock, w)) as H.
  fold final in H. simpl in H. rewrite pending_opens_replicate in H. lia.
Qed.

End OpenBound.

(** * The further properties at the sample stores *)

Lemma fresh_world_connects_full : connects_to full_api_New fresh_world 0 full_store.
Proof.
  exists (mkClient None false). split; [reflexivity|]. split; [reflexivity|].
  right. split; reflexivity.
Defined.

Lemma sample_paths_are_relative path :
  path ∈ sample_paths → strings.HasPrefix path "/" = false ∧ strings.Contains path "//" = false.
Proof.
  intros Hin. unfold sample_paths in Hin.
  repeat (apply elem_of_cons in Hin as [-> | Hin]; [split; reflexivity|]).
  inversion Hin.
Defined.

Lemma GetSecretFull_fields_witness :
  ∃ fields w',
    GetSecretFull sample_Quote full_api_New (Some 0) "infra/db/admin" fresh_world
    = Done ("hunter2", fields, None) w'
    ∧ fields !! "user" = Some "alice"
    ∧ fields !! "url" = Some "https://db.example"
    ∧ fields !! "ghost" = None.
Proof.
  destruct (GetSecretFull_fields sample_Quote full_api_New fresh_world 0 full_store
              "infra/db/admin" full_secret fresh_world_connects_full eq_refl)
    as (fields & w' & HG & Hf).
  exists fields, w'. split; [exact HG|]. split; [|split].
  - apply Hf. split; [repeat constructor | reflexivity].
  - apply Hf. split; [repeat constructor | reflexivity].
  - destruct (fields !! "ghost") as [v|] eqn:E; [|reflexivity].
    apply Hf in E as [_ E]. discriminate E.
Defined.

Lemma connection_failure_propagates_witness :
  ∃ w1,
    GetSecret sample_Quote failing_api_New (Some 0) "infra/db/user" fresh_world
    = Done ("", Some (Errorf_w "failed to initialize gopass store" no_keys)) w1
    ∧ GetEnvSecrets sample_Quote failing_api_New (Some 0) "infra/db" fresh_world
      = Done (∅, Some (Errorf_w "failed to initialize gopass store" no_keys)) w1
    ∧ heap w1 = [mkClient None false].
Proof.
  destruct (connection_failure_propagates sample_Quote failing_api_New 0
              [mkClient None false] [] no_keys "infra/db/user" "infra/db" eq_refl eq_refl)
    as (HG & _ & _ & HE & _).
  eexists. split; [exact HG|]. split; [exact HE | reflexivity].
Defined.

Lemma list_failure_propagates_witness :
  ∃ w1,
    ListSecrets full_api_New (Some 0) "infra/db" fresh_world
    = Done ([], Some (Errorf_w "failed to list secrets" (LibraryError "store is locked"))) w1
    ∧ GetEnvSecrets sample_Quote full_api_New (Some 0) "infra/db" fresh_world
      = Done (∅, Some (Errorf_w "failed to list secrets" (LibraryError "store is locked")))
          w1.
Proof.
  destruct (list_failure_propagates sample_Quote full_api_New fresh_world 0 full_store
              (LibraryError "store is locked") "infra/db" fresh_world_connects_full eq_refl)
    as (w1 & ev' & HL & HG & _).
  exists w1. split; [exact HL | exact HG].
Defined.

Lemma methods_preserve_other_clients_witness :
  ∃ w',
    GetSecret sample_Quote sample_api_New (Some 0) "infra/db/user" two_clients
    = Done ("alice", None) w'
    ∧ heap w' !! 1 = Some (mkClient (Some full_store) false)
    ∧ length (heap w') = 2.
Proof.
  destruct (methods_preserve_other_clients sample_Quote sample_api_New 0 two_clients)
    as (_ & _ & HG & _).
  eexists. split; [vm_compute; reflexivity|].
  edestruct (HG "infra/db/user") as (Hlen & Hother & _); [vm_compute; reflexivity|].
  split; [rewrite Hother by lia; reflexivity | exact Hlen].
Defined.

Lemma Close_then_reconnect_witness :
  ∃ w1 w2,
    Close (Some 0) stubborn_world = Done tt w1
    ∧ ensureStore sample_api_New (Some 0) w1 = Done None w2
    ∧ connected w2 0 sample_store
    ∧ open_calls (events w2) = 1.
Proof.
  destruct (Close_then_reconnect sample_api_New stubborn_world 0 stubborn_store
              sample_store eq_refl eq_refl) as (w1 & w2 & HC & _ & HE & Hc & Hn).
  exists w1, w2. split; [exact HC|]. split; [exact HE|]. split; [exact Hc | exact Hn].
Defined.

Lemma ListSecrets_of_the_root_witness :
  ∃ w', ListSecrets sample_api_New (Some 0) "" fresh_world = Done ([], None) w'.
Proof.
  apply (ListSecrets_of_the_root sample_api_New fresh_world 0 sample_store sample_paths ""
           fresh_world_connects eq_refl (or_introl eq_refl)).
  intros path Hin. apply (sample_paths_are_relative path Hin).
Defined.

Lemma ListSecrets_doubled_separator_witness :
  ∃ w', ListSecrets sample_api_New (Some 0) "infra/db//" fresh_world = Done ([], None) w'.
Proof.
  destruct (ListSecrets_doubled_separator sample_api_New fresh_world 0 sample_store
              sample_paths "infra/db" fresh_world_connects eq_refl) as [_ H].
  - intros path Hin. apply (sample_paths_are_relative path Hin).
  - exact H.
Defined.

Lemma GetEnvSecrets_keys_are_single_segments_witness :
  ∃ m w2,
    GetEnvSecrets sample_Quote sample_api_New (Some 0) "infra/db" fresh_world
    = Done (m, None) w2
    ∧ m !! "nested/x" = None
    ∧ size m ≤ 5.
Proof.
  destruct (GetEnvSecrets_keys_are_single_segments sample_Quote sample_api_New fresh_world 0
              sample_store sample_paths "infra/db" fresh_world_connects eq_refl)
    as (m & w2 & HG & Hk & Hsize).
  exists m, w2. split; [exact HG|]. split; [|exact Hsize].
  destruct (m !! "nested/x") as [v|] eqn:E; [|reflexivity].
  assert (is_Some (m !! "nested/x")) as Hs by (rewrite E; eauto).
  apply Hk in Hs. discriminate Hs.
Defined.

Lemma GetEnvSecrets_store_calls_witness :
  ∃ m w2 ev',
    GetEnvSecrets sample_Quote sample_api_New (Some 0) "infra/db" connected_world
    = Done (m, None) w2
    ∧ events w2 = ev'
    ∧ backend_calls ev'
      = [EvStoreList; EvStoreGet "infra/db/user" "latest";
         EvStoreGet "infra/db/password" "latest"; EvStoreGet "infra/db/broken" "latest"].
Proof.
  destruct (GetEnvSecrets_store_calls sample_Quote sample_api_New connected_world 0
              sample_store sample_paths "infra/db" eq_refl eq_refl)
    as (children & w1 & m & w2 & ev' & HL & HG & Hev & Hcalls).
  exists m, w2, ev'. split; [exact HG|]. split; [exact Hev|].
  assert (Done (children, None) w1
          = ListSecrets sample_api_New (Some 0) "infra/db" connected_world) as E
    by (symmetry; exact HL).
  vm_compute in E. injection E as -> _. exact Hcalls.
Defined.

Lemma ensureStore_mutual_exclusion_witness :
  let final := run sample_api_New (Some 0) [0; 1; 0; 1]
                 (replicate 2 AtLock, fresh_world) in
  fst final !! 0 = Some AtNew
  ∧ fst final !! 1 = Some AtLock
  ∧ ∀ j pj, fst final !! j = Some pj → critical pj = true → j = 0.
Proof.
  destruct (ensureStore_mutual_exclusion sample_api_New 0 [mkClient None false] [] 2
              [0; 1; 0; 1] eq_refl) as [Hex _].
  split; [reflexivity|]. split; [reflexivity|].
  intros j pj Hj Hc. symmetry. exact (Hex 0 j AtNew pj eq_refl Hj eq_refl Hc).
Defined.

Lemma ensureStore_no_deadlock_witness :
  let final := run sample_api_New (Some 0) [0; 1; 0; 1]
                 (replicate 2 AtLock, fresh_world) in
  ∃ i pc pc' w',
    fst final !! i = Some pc
    ∧ thread_step sample_api_New (Some 0) pc (snd final) = Done pc' w'.
Proof.
  destruct (ensureStore_no_deadlock sample_api_New 0 [mkClient None false] [] 2
              [0; 1; 0; 1] eq_refl) as [Hall | H]; [|exact H].
  exfalso. apply Forall_lookup_1 with (i := 0) (x := AtNew) in Hall;
    [discriminate Hall | reflexivity].
Defined.

Lemma Configure_accepts_only_GopassClient_witness :
  let out := SecretEphemeralResource_Configure NewSecretEphemeralResource
               (ephemeral.mkConfigureRequest (AnyOther "string"))
               (ephemeral.mkConfigureResponse []) in
  client (fst out) = None
  ∧ diag.HasError (ephemeral.ConfigureResponse_Diagnostics (snd out)) = true
  ∧ diag.NewErrorDiagnostic "Unexpected Provider Data" "Expected *GopassClient, got: string"
    ∈ ephemeral.ConfigureResponse_Diagnostics (snd out).
Proof.
  destruct (Configure_accepts_only_GopassClient NewSecretEphemeralResource
              (AnyOther "string") (ephemeral.mkConfigureResponse []))
    as (Hclient & _ & Herr & Hdiag).
  split; [exact Hclient|]. split; [exact Herr|]. exact (Hdiag "string" eq_refl).
Defined.

Lemma Open_stops_on_configuration_error_witness :
  SecretEphemeralResource_Open sample_Quote sample_api_New NewSecretEphemeralResource
    unreadable_request new_OpenResponse fresh_world
  = Done (ephemeral.mkOpenResponse None
            [mkDiagnostic SeverityError "Missing Configuration" "path is required"])
      fresh_world.
Proof.
  apply (Open_stops_on_configuration_error sample_Quote sample_api_New
           NewSecretEphemeralResource unreadable_request new_OpenResponse fresh_world).
  reflexivity.
Defined.

Lemma Open_reads_once_and_logs_only_the_path_witness :
  ∃ resp',
    SecretEphemeralResource_Open sample_Quote sample_api_New configured_resource
      (open_request "infra/db/user") new_OpenResponse connected_world
    = Done resp'
        (mkWorld (heap connected_world)
           [EvLog LDebug "Reading secret from gopass" [("path", FString "infra/db/user")];
            EvLog LDebug "Reading secret" [("path", FString "infra/db/user")];
            EvStoreGet "infra/db/user" "latest";
            EvLog LDebug "Successfully read secret" [("path", FString "infra/db/user")];
            EvLog LDebug "Successfully read secret from gopass"
              [("path", FString "infra/db/user")]]).
Proof.
  destruct (Open_reads_once_and_logs_only_the_path sample_Quote sample_api_New
              configured_resource (open_request "infra/db/user") new_OpenResponse
              connected_world 0 sample_store eq_refl eq_refl eq_refl)
    as (resp' & ev' & HO & Hev & _).
  exists resp'. rewrite HO, Hev. reflexivity.
Defined.

Lemma GopassProvider_Configure_allocates_fresh_client_witness :
  ∃ presp w',
    GopassProvider_Configure (provider.mkConfigureRequest [])
      provider.new_ConfigureResponse two_clients = Done presp w'
    ∧ provider.ResourceData presp = AnyGopassClient (Some 2)
    ∧ heap w' !! 1 = Some (mkClient (Some full_store) false)
    ∧ events w' = [].
Proof.
  destruct (GopassProvider_Configure_allocates_fresh_client (provider.mkConfigureRequest [])
              provider.new_ConfigureResponse two_clients) as [_ H].
  destruct (H eq_refl) as (l & presp & w' & HC & Hfree & _ & Hkeep & Hev & _ & HR & _).
  exists presp, w'. split; [exact HC|].
  assert (l = 2) as ->.
  { assert (Done presp w'
            = GopassProvider_Configure (provider.mkConfigureRequest [])
                provider.new_ConfigureResponse two_clients) as E by (symmetry; exact HC).
    vm_compute in E. injection E as -> _. simpl in HR. now injection HR as <-. }
  split; [exact HR|]. split; [apply Hkeep; reflexivity | exact Hev].
Defined.

(** For a prefix that ends in a separator the listing is that of the
    stripped prefix: [infra/db/user] is returned for [infra/db/], and it
    is not [infra/db/] followed by a separator and a name. *)
Lemma ListSecrets_strips_the_trailing_separator :
  (∃ w', ListSecrets sample_api_New (Some 0) "infra/db/" fresh_world
         = Done (["infra/db/user"; "infra/db/password"; "infra/db/broken"], None) w')
  ∧ "infra/db/user" ∈ sample_paths
  ∧ ¬ ∃ x, "infra/db/user" = "infra/db/" +:+ "/" +:+ x.
Proof.
  split; [eexists; vm_compute; reflexivity|]. split; [repeat constructor|].
  intros [x H]. vm_compute in H. discriminate H.
Qed.
